(** * withTableSorting: the sort controller of the table component

    A shallow embedding of
    [src/components/Table/hoc/withTableSorting/withTableSorting.tsx]
    and the properties of its sort-state cycle, its comparison chain and
    its handling of the [data] array.

    Conventions of the embedding:
    - a JavaScript array is a [list]; an array that the code shares or
      mutates lives in a [Heap] and is named by a reference;
    - an optional property ([meta?], [sortState?], ...) is an [option];
    - a row object is a finite map from property names to values, and
      reading a missing property gives [undefined];
    - the number returned by a comparator is an integer (only its sign
      and whether it is zero are ever looked at);
    - one click is one step: [setState] has taken effect when the
      handler returns. *)

From Stdlib Require Import ZArith Lia.
From stdpp Require Import base option list strings gmap sorting.

#[local] Open Scope Z_scope.

(** ** Array helpers of the language *)

Module JS.
Section Arrays.
Context {A : Type}.

(** [arr[i]]: [undefined] (here [None]) outside [0 .. length-1]. *)
Definition at_index (arr : list A) (i : Z) : option A :=
  if i <? 0 then None else arr !! Z.to_nat i.

(** [arr.find(p)]: the first element satisfying [p]. *)
Fixpoint find (p : A → bool) (arr : list A) : option A :=
  match arr with
  | [] => None
  | x :: rest => if p x then Some x else find p rest
  end.

(** [arr.findIndex(p)]: the index of the first element satisfying [p],
    or [-1]. *)
Fixpoint findIndex_from (p : A → bool) (arr : list A) (k : Z) : Z :=
  match arr with
  | [] => -1
  | x :: rest => if p x then k else findIndex_from p rest (k + 1)
  end.

Definition findIndex (p : A → bool) (arr : list A) : Z :=
  findIndex_from p arr 0.

(** [arr.indexOf(x)], with the strict equality of the elements given
    as [eqb]. *)
Definition indexOf (eqb : A → A → bool) (arr : list A) (x : A) : Z :=
  findIndex (eqb x) arr.

(** The clamping of a relative index done by [slice]: a negative index
    counts from the end. *)
Definition relative_index (len i : Z) : Z :=
  if i <? 0 then Z.max (len + i) 0 else Z.min i len.

(** [arr.slice(start, end)]. *)
Definition slice (arr : list A) (start stop : Z) : list A :=
  let len := Z.of_nat (length arr) in
  let k := relative_index len start in
  let final := relative_index len stop in
  take (Z.to_nat (final - k)) (drop (Z.to_nat k) arr).

(** [arr.slice(start)]: up to the end of the array. *)
Definition slice_from (arr : list A) (start : Z) : list A :=
  slice arr start (Z.of_nat (length arr)).
End Arrays.
End JS.

(** ** Values stored in rows

    The rows are of a type [I extends TableDataItem] whose property
    values are arbitrary.  The generic comparison only uses [===] and
    [>] on them, so a value type is anything that provides these two
    operators and the value [undefined]. *)

Class JSValue (V : Type) := {
  js_undefined : V;
  (** [a === b] *)
  strict_equals : V → V → bool;
  (** [a > b] *)
  greater_than : V → V → bool;
}.

(** The primitive values without strings: [undefined], [null], booleans,
    [NaN] and the integer-valued numbers, with the language's [===] and
    [>] on them. *)
Module Primitive.

Inductive value : Type :=
| Undefined
| Null
| Bool (b : bool)
| NaN
| Num (n : Z).

(** [ToNumber]; [None] stands for [NaN]. *)
Definition to_number (v : value) : option Z :=
  match v with
  | Undefined => None
  | Null => Some 0
  | Bool b => Some (if b then 1 else 0)
  | NaN => None
  | Num n => Some n
  end.

(** Strict equality: same type and same value, and [NaN] differs from
    itself. *)
Definition prim_strict_equals (a b : value) : bool :=
  match a, b with
  | Undefined, Undefined => true
  | Null, Null => true
  | Bool x, Bool y => Bool.eqb x y
  | Num x, Num y => x =? y
  | _, _ => false
  end.

(** [a > b] on primitives that are not both strings: both sides are
    converted to numbers, and a comparison with [NaN] is false. *)
Definition prim_greater_than (a b : value) : bool :=
  match to_number a, to_number b with
  | Some x, Some y => y <? x
  | _, _ => false
  end.

#[global] Instance primitive_value : JSValue value := {|
  js_undefined := Undefined;
  strict_equals := prim_strict_equals;
  greater_than := prim_greater_than;
|}.

End Primitive.

(** ** Sort state *)

(** [type ColumnSortOrder = 'asc' | 'desc'] *)
Inductive ColumnSortOrder : Type := asc | desc.

#[global] Instance ColumnSortOrder_eq_dec : EqDecision ColumnSortOrder.
Proof. solve_decision. Defined.

(** [interface ColumnSortState] *)
Record ColumnSortState : Type := {
  column : string;
  order : ColumnSortOrder;
}.

#[global] Instance ColumnSortState_eq_dec : EqDecision ColumnSortState.
Proof. solve_decision. Defined.

(** [type SortState = ColumnSortState[]]: the first entry is the primary
    key. *)
Abbreviation SortState := (list ColumnSortState).

(** The other order; the spec writes it [!default]. *)
Definition opposite (o : ColumnSortOrder) : ColumnSortOrder :=
  match o with asc => desc | desc => asc end.

(** ** Rows and comparators *)

(** A row: an object read by property name. *)
Definition TableDataItem (V : Type) : Type := gmap string V.

(** [item[key]]: a missing property reads as [undefined]. *)
Definition prop `{JSValue V} (item : TableDataItem V) (key : string) : V :=
  default js_undefined (item !! key).

(** A three-way comparison of two rows: negative, zero or positive. *)
Definition Comparator (I : Type) : Type := I → I → Z.

(** [function defaultCompareFunction(itemA, itemB, columnId)] *)
Definition defaultCompareFunction `{JSValue V}
    (itemA itemB : TableDataItem V) (columnId : string) : Z :=
  if strict_equals (prop itemA columnId) (prop itemB columnId) then 0
  else if greater_than (prop itemA columnId) (prop itemB columnId) then 1
  else -1.

(** ** Column descriptors *)

(** [meta.sort]: a flag asking for the generic comparison, or a compare
    function of the column's own. *)
Inductive SortMeta (I : Type) : Type :=
| SortFlag (enabled : bool)
| SortFunction (compare : Comparator I).
Arguments SortFlag {I} enabled.
Arguments SortFunction {I} compare.

Inductive Align : Type := AlignLeft | AlignCenter | AlignRight.

(** Modelled from the spec: the declaration of [TableColumnConfig]
    ([Table.tsx], which is not among the sources).  The spec gives a column an
    identifier, a header, an alignment and metadata with an optional
    comparator (a function of two rows, or a flag meaning the generic
    comparison) and an optional default order.

    The header [name] is either what the caller supplied (text or a render
    function of the caller, opaque here) or the header function that
    [enhanceColumns] builds; that closure is represented by the column it
    captures, and [renderSortableName] is its body. *)
Inductive ColumnName (I : Type) : Type :=
| CallerName (content : string)
| SortableName (origin : TableColumnConfig I)
with ColumnMeta (I : Type) : Type :=
| mkMeta (sort : option (SortMeta I))
         (defaultSortOrder : option ColumnSortOrder)
         (_originalName : option (ColumnName I))
with TableColumnConfig (I : Type) : Type :=
| mkColumn (id : string) (name : ColumnName I)
           (align : option Align) (meta : option (ColumnMeta I)).
Arguments CallerName {I} content.
Arguments SortableName {I} origin.
Arguments mkMeta {I} sort defaultSortOrder _originalName.
Arguments mkColumn {I} id name align meta.

Section ColumnFields.
Context {I : Type}.

Definition column_id (c : TableColumnConfig I) : string :=
  match c with mkColumn id _ _ _ => id end.
Definition column_name (c : TableColumnConfig I) : ColumnName I :=
  match c with mkColumn _ name _ _ => name end.
Definition column_align (c : TableColumnConfig I) : option Align :=
  match c with mkColumn _ _ align _ => align end.
Definition column_meta (c : TableColumnConfig I) : option (ColumnMeta I) :=
  match c with mkColumn _ _ _ meta => meta end.

Definition meta_sort (m : ColumnMeta I) : option (SortMeta I) :=
  match m with mkMeta sort _ _ => sort end.
Definition meta_defaultSortOrder (m : ColumnMeta I) : option ColumnSortOrder :=
  match m with mkMeta _ d _ => d end.

(** [column?.meta?.sort], where [column] may be [undefined]. *)
Definition sort_of (c : option (TableColumnConfig I)) : option (SortMeta I) :=
  match c with
  | Some col =>
      match column_meta col with
      | Some m => meta_sort m
      | None => None
      end
  | None => None
  end.

(** The truthiness of [meta.sort]: absent and [false] are falsy. *)
Definition truthy_sort (s : option (SortMeta I)) : bool :=
  match s with
  | None => false
  | Some (SortFlag enabled) => enabled
  | Some (SortFunction _) => true
  end.
End ColumnFields.

(** Modelled from the spec: [Table.getHeadCellContent] (in [Table.tsx],
    not among the sources), the helper that extracts a column's configured
    header content.  Its result for a column is kept as [SortContent] of
    that column, beside the spacer and the indicator that the header
    function of a sortable column renders. *)
Inductive HeaderPart (I : Type) : Type :=
| SortContent (origin : TableColumnConfig I)
| SortSpacer
| SortIndicator (shown : ColumnSortOrder).
Arguments SortContent {I} origin.
Arguments SortSpacer {I}.
Arguments SortIndicator {I} shown.

Record SortHeader (I : Type) : Type := {
  header_content : list (HeaderPart I);
  header_active : bool;
  (** the column bound to the click handler *)
  header_onClick : TableColumnConfig I;
}.
Arguments header_content {I} _.
Arguments header_active {I} _.
Arguments header_onClick {I} _.

(** ** Arrays in the heap

    The [data] array is shared with the caller, so arrays are named by
    references into a heap.  A reference is an index; allocation extends
    the heap at its end. *)

Module Heap.
Abbreviation ref := nat.
Abbreviation t I := (list (list I)).

Section Heap.
Context {I : Type}.

(** [r.slice()]: a fresh array with the elements of [r]. *)
Definition slice (r : ref) (h : t I) : option (ref * t I) :=
  rows ← h !! r;
  Some (length h, h ++ [rows]).

(** [r.sort(compare)]: sorts the array in place with the engine's sort
    [native] and returns the same reference. *)
Definition sort (native : Comparator I → list I → list I)
    (compare : Comparator I) (r : ref) (h : t I) : option (ref * t I) :=
  rows ← h !! r;
  Some (r, <[r := native compare rows]> h).
End Heap.
End Heap.

(** ** [Array.prototype.sort]

    The engine's algorithm is not fixed by the language.  What the
    language promises, for a comparator that is consistent on the
    elements, is a sorted and stable rearrangement.  The controller is
    parameterised by the sort; [insertion_sort] is an executable one that
    keeps the promise. *)

Section SortContract.
Context {I : Type}.

(** A consistent comparator on the elements of [l]: the signs of
    [compare a b] and [compare b a] are opposite, and "not after" is
    transitive. *)
Definition consistent_on (l : list I) (compare : Comparator I) : Prop :=
  (∀ a b, a ∈ l → b ∈ l → Z.sgn (compare a b) = - Z.sgn (compare b a)) ∧
  (∀ a b c, a ∈ l → b ∈ l → c ∈ l →
     compare a b ≤ 0 → compare b c ≤ 0 → compare a c ≤ 0).

(** No element is placed before one that the comparator puts first. *)
Definition ordered_by (compare : Comparator I) (l : list I) : Prop :=
  StronglySorted (λ a b, compare a b ≤ 0) l.

(** The rows that tie with [e]. *)
Definition ties (compare : Comparator I) (e : I) (l : list I) : list I :=
  filter (λ x, compare e x = 0) l.

Definition sort_permutes (native : Comparator I → list I → list I) : Prop :=
  ∀ compare l, native compare l ≡ₚ l.

Definition sort_orders (native : Comparator I → list I → list I) : Prop :=
  ∀ compare l, consistent_on l compare → ordered_by compare (native compare l).

(** Stability: the elements that tie with one another keep their
    order. *)
Definition sort_stable (native : Comparator I → list I → list I) : Prop :=
  ∀ compare l, consistent_on l compare →
    ∀ e, e ∈ l → ties compare e (native compare l) = ties compare e l.

Fixpoint insert (compare : Comparator I) (x : I) (l : list I) : list I :=
  match l with
  | [] => [x]
  | y :: rest =>
      if compare x y <=? 0 then x :: y :: rest
      else y :: insert compare x rest
  end.

Definition insertion_sort (compare : Comparator I) (l : list I) : list I :=
  foldr (insert compare) [] l.

(** Every element is put strictly before its predecessor by the
    comparator: a strictly descending run. *)
Fixpoint descending (compare : Comparator I) (l : list I) : bool :=
  match l with
  | x :: (y :: _) as rest => (compare y x <? 0) && descending compare rest
  | _ => true
  end.

(** A sort that, as merge sorts with run detection do, reverses an input
    that is one strictly descending run, and inserts otherwise.  Under a
    consistent comparator such a run has no ties, so this sort is stable
    too. *)
Definition run_sort (compare : Comparator I) (l : list I) : list I :=
  if descending compare l then reverse l else insertion_sort compare l.
End SortContract.

(** ** The component *)

(** [TableProps<I> & WithTableSortingProps], as far as the controller
    reads them.  [Owner] is the state of the code that owns the table;
    calling [onSortStateChange] acts on it. *)
Record Props (I Owner : Type) : Type := {
  data : Heap.ref;
  columns : list (TableColumnConfig I);
  defaultSortState : option SortState;
  sortState : option SortState;
  onSortStateChange : option (SortState → Owner → Owner);
}.
Arguments data {I Owner} _.
Arguments columns {I Owner} _.
Arguments defaultSortState {I Owner} _.
Arguments sortState {I Owner} _.
Arguments onSortStateChange {I Owner} _.

(** [interface WithTableSortingState] *)
Record WithTableSortingState : Type := {
  sort : SortState;
}.

(** The part of [React.MouseEvent] that the click handler reads. *)
Record MouseEvent : Type := {
  shiftKey : bool;
}.

(** The two ways in which a new sort state is committed:
    [onSortStateChange!(newSortState)] and [this.setState({sort})]. *)
Inductive Effect : Type :=
| CallOnSortStateChange (newSortState : SortState)
| SetState (state : WithTableSortingState).

(** The sort state that an effect commits. *)
Definition committed (e : Effect) : SortState :=
  match e with
  | CallOnSortStateChange newSortState => newSortState
  | SetState state => sort state
  end.

Section Controller.
Context {V : Type} `{!JSValue V} {Owner : Type}.

Local Abbreviation Item := (TableDataItem V).
Local Abbreviation Column := (TableColumnConfig (TableDataItem V)).
Local Abbreviation WithProps := (Props (TableDataItem V) Owner).

(** The engine's [Array.prototype.sort]. *)
Variable native_sort : Comparator Item → list Item → list Item.

(** [state = {sort: this.props.defaultSortState ?? []}] *)
Definition initialState (props : WithProps) : WithTableSortingState :=
  {| sort := default [] (defaultSortState props) |}.

(** [isControlledState()]: [Boolean(sortState && onSortStateChange)];
    an array and a function are truthy whenever they are there. *)
Definition isControlledState (props : WithProps) : bool :=
  match sortState props, onSortStateChange props with
  | Some _, Some _ => true
  | _, _ => false
  end.

(** [getSortState()].  The assertion [sortState!] is met in controlled
    mode, so the empty default is never the result. *)
Definition getSortState (props : WithProps) (state : WithTableSortingState)
    : SortState :=
  if isControlledState props then default [] (sortState props)
  else sort state.

(** [handleSortStateChange(newSortState)]: the call it makes. *)
Definition handleSortStateChange (props : WithProps)
    (newSortState : SortState) : Effect :=
  if isControlledState props then CallOnSortStateChange newSortState
  else SetState {| sort := newSortState |}.

(** [getColumnDefaultSortOrder(column)]:
    [column.meta?.defaultSortOrder || 'asc']. *)
Definition getColumnDefaultSortOrder (col : Column) : ColumnSortOrder :=
  match column_meta col with
  | Some m => default asc (meta_defaultSortOrder m)
  | None => asc
  end.

(** [getNextSortForColumn(column, currentState)] *)
Definition getNextSortForColumn (col : Column)
    (currentState : option ColumnSortState) : SortState :=
  let defaultOrder := getColumnDefaultSortOrder col in
  let orderStack : list (option ColumnSortOrder) :=
    if decide (defaultOrder = desc) then [Some desc; Some asc; None]
    else [Some asc; Some desc; None] in
  let currentIndex :=
    JS.indexOf (λ a b, bool_decide (a = b)) orderStack (order <$> currentState) in
  let nextIndex := Z.rem (currentIndex + 1) (Z.of_nat (length orderStack)) in
  let nextOrder := mjoin (JS.at_index orderStack nextIndex) in
  match nextOrder with
  | None => []
  | Some o => [{| column := column_id col; order := o |}]
  end.

(** [handleColumnSortClick(column, event)] *)
Definition handleColumnSortClick (props : WithProps)
    (state : WithTableSortingState) (col : Column) (event : MouseEvent)
    : Effect :=
  let current := getSortState props state in
  let currentStateIndex :=
    JS.findIndex (λ s, String.eqb (column s) (column_id col)) current in
  let currentState := JS.at_index current currentStateIndex in
  let nextColumnSort := getNextSortForColumn col currentState in
  if negb (shiftKey event) then
    handleSortStateChange props nextColumnSort
  else
    match currentState with
    | Some _ =>
        handleSortStateChange props
          (JS.slice current 0 currentStateIndex
             ++ JS.slice_from current (currentStateIndex + 1)
             ++ nextColumnSort)
    | None =>
        handleSortStateChange props (current ++ nextColumnSort)
    end.

(** The comparison handed to [sort] in [getSortedData]: the entries of
    the sort state are tried in order, and the first one that does not
    tie decides. *)
Fixpoint compareItems (cols : list Column) (current : SortState)
    (itemA itemB : Item) : Z :=
  match current with
  | [] => 0
  | state :: rest =>
      let col := JS.find (λ c, String.eqb (column_id c) (column state)) cols in
      let compareFunction := sort_of col in
      if negb (truthy_sort compareFunction) then
        compareItems cols rest itemA itemB
      else
        let compareValue :=
          match compareFunction with
          | Some (SortFunction compare) => compare itemA itemB
          | _ => defaultCompareFunction itemA itemB (column state)
          end in
        if negb (compareValue =? 0) then
          match order state with
          | asc => compareValue
          | desc => - compareValue
          end
        else compareItems cols rest itemA itemB
  end.

(** [getSortedData()]: the reference of the array handed to the table,
    and the heap afterwards.  [None] only if [data] names no array. *)
Definition getSortedData (props : WithProps) (state : WithTableSortingState)
    (h : Heap.t Item) : option (Heap.ref * Heap.t Item) :=
  let current := getSortState props state in
  if isControlledState props || (length current =? 0)%nat then
    Some (data props, h)
  else
    '(copy, h1) ← Heap.slice (data props) h;
    Heap.sort native_sort (compareItems (columns props) current) copy h1.

(** The header function that [enhanceColumns] gives a sortable column,
    called while the sort state is [getSortState()]. *)
Definition renderSortableName (props : WithProps)
    (state : WithTableSortingState) (col : Column) : SortHeader Item :=
  let current := getSortState props state in
  let sortOrder : option ColumnSortOrder :=
    if (0 <? length current)%nat then
      order <$> JS.find (λ s, String.eqb (column s) (column_id col)) current
    else None in
  let content :=
    [SortContent col; SortSpacer;
     SortIndicator (default (getColumnDefaultSortOrder col) sortOrder)] in
  {| header_content :=
       match column_align col with
       | Some AlignRight => reverse content
       | _ => content
       end;
     header_active := bool_decide (is_Some sortOrder);
     header_onClick := col |}.

(** The function mapped over the columns by [enhanceColumns]. *)
Definition enhanceColumn (col : Column) : Column :=
  match column_meta col with
  | Some m =>
      if truthy_sort (meta_sort m) then
        mkColumn (column_id col) (SortableName col) (column_align col)
          (Some (mkMeta (meta_sort m) (meta_defaultSortOrder m)
                        (Some (column_name col))))
      else col
  | None => col
  end.

(** The function that [enhanceColumns] memoises:
    [(columns) => columns.map((column) => ...)]. *)
Definition decorateColumns (cols : list Column) : list Column :=
  enhanceColumn <$> cols.

(** Modelled from the spec: lodash's [memoize] (not among the sources),
    as the spec describes the decoration: memoised on the identity of the
    input column sequence, recomputed only when the reference of the
    sequence changes.  The cache of a component maps the reference of a
    columns array to the reference of the array computed for it.

    [enhanceColumns(columns)]: a hit returns the cached array, whatever
    the columns array holds by now; a miss decorates the columns into a
    new array and caches it. *)
Definition enhanceColumns (cache : gmap nat nat) (columnsRef : Heap.ref)
    (ch : Heap.t Column)
    : option (Heap.ref * gmap nat nat * Heap.t Column) :=
  match cache !! columnsRef with
  | Some cached => Some (cached, cache, ch)
  | None =>
      cols ← ch !! columnsRef;
      Some (length ch, <[columnsRef := length ch]> cache,
            ch ++ [decorateColumns cols])
  end.


(** Carrying out an effect: [setState] replaces the state of the
    component, the callback acts on its owner.  [handleSortStateChange]
    asks for the callback in controlled mode only, where it is there. *)
Definition perform (props : WithProps) (state : WithTableSortingState)
    (effect : Effect) (owner : Owner) : WithTableSortingState * Owner :=
  match effect with
  | SetState state' => (state', owner)
  | CallOnSortStateChange newSortState =>
      match onSortStateChange props with
      | Some callback => (state, callback newSortState owner)
      | None => (state, owner)
      end
  end.

(** One click on the header of [col], from the handler to the commit. *)
Definition click (props : WithProps) (col : Column) (event : MouseEvent)
    (world : WithTableSortingState * Owner) : WithTableSortingState * Owner :=
  perform props world.1 (handleColumnSortClick props world.1 col event) world.2.

(** [render()]: the [data] and [columns] passed to the wrapped table.
    [columnsRef] is the reference of the array [props.columns], and
    [cache] the cache of [enhanceColumns]. *)
Definition render (props : WithProps) (state : WithTableSortingState)
    (cache : gmap nat nat) (columnsRef : Heap.ref)
    (h : Heap.t Item) (ch : Heap.t Column)
    : option (Heap.ref * Heap.ref * Heap.t Item
              * gmap nat nat * Heap.t Column) :=
  '(sorted, h') ← getSortedData props state h;
  '(shown, cache', ch') ← enhanceColumns cache columnsRef ch;
  Some (sorted, shown, h', cache', ch').
End Controller.

(** Every array in the cache of [enhanceColumns] is the decoration of what
    its columns array holds now: so it is before the first call, and after
    any calls as long as no columns array is changed in place. *)
Definition cache_current {V : Type} (cache : gmap nat nat)
    (ch : Heap.t (TableColumnConfig (TableDataItem V))) : Prop :=
  ∀ columnsRef cached,
    cache !! columnsRef = Some cached →
    ∃ cols, ch !! columnsRef = Some cols ∧
            ch !! cached = Some (decorateColumns cols).

(** ** The behaviour as the specification words it *)

(** The 3-state cycle seeded by the default order: descending, ascending,
    none when the default is descending; ascending, descending, none
    otherwise.  [None] is "none". *)
Definition cycleNext (defaultOrder : ColumnSortOrder)
    (current : option ColumnSortOrder) : option ColumnSortOrder :=
  match defaultOrder, current with
  | desc, None => Some desc
  | desc, Some desc => Some asc
  | desc, Some asc => None
  | asc, None => Some asc
  | asc, Some asc => Some desc
  | asc, Some desc => None
  end.

(** The column's next entry: one entry, or nothing for "none". *)
Definition nextEntry (X : string) (next : option ColumnSortOrder) : SortState :=
  match next with
  | Some o => [{| column := X; order := o |}]
  | None => []
  end.

(** The order of the existing entry for [X], if there is one. *)
Definition activeOrder (X : string) (current : SortState) : option ColumnSortOrder :=
  order <$> JS.find (λ s, String.eqb (column s) X) current.

(** The sort state without the entries for [X]. *)
Definition withoutColumn (X : string) (current : SortState) : SortState :=
  filter (λ s, column s ≠ X) current.

(** A click without the modifier: only this column's next entry. *)
Definition plainClick (X : string) (defaultOrder : ColumnSortOrder)
    (current : SortState) : SortState :=
  nextEntry X (cycleNext defaultOrder (activeOrder X current)).

(** A click with the modifier: the existing entry is removed and the next
    one appended. *)
Definition shiftClick (Y : string) (defaultOrder : ColumnSortOrder)
    (current : SortState) : SortState :=
  withoutColumn Y current
    ++ nextEntry Y (cycleNext defaultOrder (activeOrder Y current)).

(** The same props with neither [sortState] nor [onSortStateChange]: the
    fully uncontrolled configuration. *)
Definition withoutControl {I Owner : Type} (props : Props I Owner) : Props I Owner :=
  {| data := data props;
     columns := columns props;
     defaultSortState := defaultSortState props;
     sortState := None;
     onSortStateChange := None |}.

Section SortKeys.
Context {V : Type} `{!JSValue V}.

Local Abbreviation Item := (TableDataItem V).
Local Abbreviation Column := (TableColumnConfig (TableDataItem V)).

(** The column that an entry names, as the comparison looks it up:
    [columns.find((c) => c.id === state.column)]. *)
Definition columnOf (cols : list Column) (state : ColumnSortState)
    : option Column :=
  JS.find (λ c, String.eqb (column_id c) (column state)) cols.

(** The comparator of the column that an entry names, if the column
    declares a comparison capability. *)
Definition entryComparator (cols : list Column) (state : ColumnSortState)
    : option (Comparator Item) :=
  match sort_of (columnOf cols state) with
  | Some (SortFunction compare) => Some compare
  | Some (SortFlag true) =>
      Some (λ itemA itemB, defaultCompareFunction itemA itemB (column state))
  | _ => None
  end.

(** A comparison in the direction of an entry: negated when
    descending. *)
Definition directed (o : ColumnSortOrder) (compare : Comparator Item)
    : Comparator Item :=
  λ itemA itemB,
    match o with
    | asc => compare itemA itemB
    | desc => - compare itemA itemB
    end.

(** The keys that take part in the ordering, each in its direction. *)
Definition sortKeys (cols : list Column) (current : SortState)
    : list (Comparator Item) :=
  omap (λ state, directed (order state) <$> entryComparator cols state) current.

(** [itemA] may stand before [itemB] in the lexicographic order of the
    keys: the first key that does not tie puts [itemA] first. *)
Fixpoint lex_ordered (keys : list (Comparator Item)) (itemA itemB : Item)
    : Prop :=
  match keys with
  | [] => True
  | key :: rest =>
      key itemA itemB < 0 ∨ (key itemA itemB = 0 ∧ lex_ordered rest itemA itemB)
  end.

(** Non-decreasing and non-increasing under a comparator, between
    neighbours. *)
Definition nondecreasing (compare : Comparator Item) (l : list Item) : Prop :=
  Sorted (λ a b, compare a b ≤ 0) l.
Definition nonincreasing (compare : Comparator Item) (l : list Item) : Prop :=
  Sorted (λ a b, 0 ≤ compare a b) l.
End SortKeys.

(** ** Sample tables *)

Module Sample.
Import Primitive.

Abbreviation Item := (TableDataItem value).
Abbreviation Column := (TableColumnConfig (TableDataItem value)).
Abbreviation WithProps := (Props (TableDataItem value) (list SortState)).

Definition row (name rank : value) : Item :=
  {[ "name" := name; "rank" := rank ]}.

(** [(a, b) => a.rank - b.rank] on rows whose rank is a number. *)
Definition rankOf (item : Item) : Z :=
  default 0 (to_number (prop item "rank")).
Definition compareRank : Comparator Item :=
  λ itemA itemB, rankOf itemA - rankOf itemB.

(** [() => 1]: a compare function that is no ordering. *)
Definition compareAlwaysAfter : Comparator Item := λ _ _, 1.

Definition nameColumn : Column :=
  mkColumn "name" (CallerName "Name") None
    (Some (mkMeta (Some (SortFlag true)) None None)).
Definition rankColumn : Column :=
  mkColumn "rank" (CallerName "Rank") (Some AlignRight)
    (Some (mkMeta (Some (SortFunction compareRank)) (Some desc) None)).
Definition noteColumn : Column :=
  mkColumn "note" (CallerName "Note") None None.
Definition oddColumn : Column :=
  mkColumn "odd" (CallerName "Odd") None
    (Some (mkMeta (Some (SortFunction compareAlwaysAfter)) None None)).

Definition rows : list Item :=
  [row (Num 2) (Num 20); row (Num 1) (Num 20); row (Num 3) (Num 10)].

(** The owner keeps the states it was notified of. *)
Definition record : SortState → list SortState → list SortState :=
  λ s log, log ++ [s].

Definition uncontrolled : WithProps :=
  {| data := 0%nat; columns := [nameColumn; rankColumn; noteColumn; oddColumn];
     defaultSortState := None; sortState := None;
     onSortStateChange := None |}.

Definition controlled (s : SortState) : WithProps :=
  {| data := 0%nat; columns := [nameColumn; rankColumn; noteColumn; oddColumn];
     defaultSortState := None; sortState := Some s;
     onSortStateChange := Some record |}.

(** Only [sortState] is supplied. *)
Definition partial : WithProps :=
  {| data := 0%nat; columns := [nameColumn; rankColumn; noteColumn; oddColumn];
     defaultSortState := None;
     sortState := Some [{| column := "name"; order := asc |}];
     onSortStateChange := None |}.

Definition heap : Heap.t Item := [rows].

(** Rows named 1, [NaN], 1, told apart by their ranks. *)
Definition namelessRows : list Item :=
  [row (Num 1) (Num 10); row NaN (Num 20); row (Num 1) (Num 30)].
End Sample.

(** * Properties *)

(** ** The array helpers *)

Section ArrayFacts.
Context {A : Type}.
Implicit Types (p : A → bool) (l pre post : list A).

Lemma find_None p l :
  JS.find p l = None ↔ Forall (λ y, p y = false) l.
Proof.
  induction l as [|y l IH]; simpl.
  - split; [constructor | done].
  - destruct (p y) eqn:Hy.
    + split; [done | intros H; inversion H; congruence].
    + rewrite IH. split; [by constructor | by inversion 1].
Qed.

Lemma find_Some p l x :
  JS.find p l = Some x →
  ∃ pre post, l = pre ++ x :: post ∧ p x = true ∧ Forall (λ y, p y = false) pre.
Proof.
  induction l as [|y l IH]; simpl; [done|].
  destruct (p y) eqn:Hy.
  - intros [= ->]. by exists [], l.
  - intros (pre & post & -> & Hx & Hpre)%IH.
    exists (y :: pre), post. split_and!; [done | done | by constructor].
Qed.

Lemma find_app_found p pre x post :
  Forall (λ y, p y = false) pre → p x = true →
  JS.find p (pre ++ x :: post) = Some x.
Proof.
  intros Hpre Hx. induction Hpre as [|y pre Hy _ IH]; simpl.
  - by rewrite Hx.
  - by rewrite Hy.
Qed.

Lemma findIndex_from_None p l k :
  Forall (λ y, p y = false) l → JS.findIndex_from p l k = -1.
Proof.
  intros H. revert k. induction H as [|y l Hy _ IH]; intros k; simpl; [done|].
  by rewrite Hy.
Qed.

Lemma findIndex_from_found p pre x post k :
  Forall (λ y, p y = false) pre → p x = true →
  JS.findIndex_from p (pre ++ x :: post) k = k + Z.of_nat (length pre).
Proof.
  intros Hpre Hx. revert k.
  induction Hpre as [|y pre Hy _ IH]; intros k; simpl.
  - rewrite Hx. lia.
  - rewrite Hy, IH. lia.
Qed.

Lemma findIndex_found p pre x post :
  Forall (λ y, p y = false) pre → p x = true →
  JS.findIndex p (pre ++ x :: post) = Z.of_nat (length pre).
Proof.
  intros. unfold JS.findIndex. rewrite findIndex_from_found by done. lia.
Qed.

(** [arr[arr.findIndex(p)]] is [arr.find(p)]. *)
Lemma at_index_findIndex p l :
  JS.at_index l (JS.findIndex p l) = JS.find p l.
Proof.
  destruct (JS.find p l) as [x|] eqn:Hfind.
  - apply find_Some in Hfind as (pre & post & -> & Hx & Hpre).
    rewrite findIndex_found by done. unfold JS.at_index.
    destruct (Z.ltb_spec (Z.of_nat (length pre)) 0) as [?|_]; [lia|].
    rewrite Nat2Z.id. by rewrite list_lookup_middle.
  - apply find_None in Hfind. unfold JS.findIndex.
    by rewrite findIndex_from_None.
Qed.

Lemma relative_index_in_range (len i : Z) :
  0 ≤ i ≤ len → JS.relative_index len i = i.
Proof.
  intros ?. unfold JS.relative_index.
  destruct (Z.ltb_spec i 0); lia.
Qed.

Lemma slice_before pre x post :
  JS.slice (pre ++ x :: post) 0 (Z.of_nat (length pre)) = pre.
Proof.
  unfold JS.slice. rewrite length_app. simpl length.
  rewrite !relative_index_in_range by lia.
  replace (Z.to_nat (Z.of_nat (length pre) - 0)) with (length pre) by lia.
  change (Z.to_nat 0) with 0%nat. by rewrite drop_0, take_app_length.
Qed.

Lemma slice_after pre x post :
  JS.slice_from (pre ++ x :: post) (Z.of_nat (length pre) + 1) = post.
Proof.
  unfold JS.slice_from, JS.slice. rewrite length_app. simpl length.
  rewrite !relative_index_in_range by lia.
  replace (Z.to_nat (Z.of_nat (length pre) + 1)) with (length (pre ++ [x]))
    by (rewrite length_app; simpl; lia).
  rewrite (cons_middle x pre post), app_assoc, drop_app_length.
  apply take_ge. lia.
Qed.
End ArrayFacts.

(** ** The generic comparison *)

Section DefaultCompare.
Context {V : Type} `{!JSValue V}.

(** C10: for all rows and every column identifier the generic comparison
    returns -1, 0 or 1: 0 when the two values are strictly equal, 1 when
    they are not and the first is greater, -1 in every other case; for
    two values of which neither equals nor exceeds the other it returns
    -1 in both argument orders, against antisymmetry. *)
Theorem defaultCompareFunction_three_way
    (itemA itemB : TableDataItem V) (columnId : string) :
  let a := prop itemA columnId in
  let b := prop itemB columnId in
  let r := defaultCompareFunction itemA itemB columnId in
  let r' := defaultCompareFunction itemB itemA columnId in
  (r = -1 ∨ r = 0 ∨ r = 1) ∧
  (strict_equals a b = true → r = 0) ∧
  (strict_equals a b = false → greater_than a b = true → r = 1) ∧
  (strict_equals a b = false → greater_than a b = false → r = -1) ∧
  (strict_equals a b = false → strict_equals b a = false →
   greater_than a b = false → greater_than b a = false →
   r = -1 ∧ r' = -1 ∧ Z.sgn r ≠ - Z.sgn r').
Proof.
  intros a b r r'. subst r r'. unfold defaultCompareFunction. fold a b.
  destruct (strict_equals a b) eqn:Hab, (greater_than a b) eqn:Gab,
    (strict_equals b a) eqn:Hba, (greater_than b a) eqn:Gba.
  all: repeat split; intros; try congruence; try lia.
Qed.
End DefaultCompare.

(** [NaN] against a number: -1 both ways. *)
Lemma defaultCompareFunction_NaN_both_ways :
  let x := Sample.row (Primitive.Num 1) Primitive.NaN in
  let y := Sample.row (Primitive.Num 2) (Primitive.Num 7) in
  defaultCompareFunction x y "rank" = -1 ∧
  defaultCompareFunction y x "rank" = -1 ∧
  Z.sgn (defaultCompareFunction x y "rank")
    ≠ - Z.sgn (defaultCompareFunction y x "rank").
Proof.
  intros x y.
  destruct (defaultCompareFunction_three_way x y "rank") as (_ & _ & _ & _ & H).
  apply H; reflexivity.
Defined.

(** ** Controlled and uncontrolled mode *)

Section Modes.
Context {V : Type} `{!JSValue V} {Owner : Type}.
Local Abbreviation Item := (TableDataItem V).
Local Abbreviation Column := (TableColumnConfig (TableDataItem V)).
Local Abbreviation WithProps := (Props (TableDataItem V) Owner).
Implicit Types (props : WithProps) (state : WithTableSortingState).

Lemma isControlledState_true props :
  isControlledState props = true ↔
  is_Some (sortState props) ∧ is_Some (onSortStateChange props).
Proof.
  unfold isControlledState.
  destruct (sortState props), (onSortStateChange props); split;
    try done; try (intros [[? ?] [? ?]]; done); by eauto.
Qed.

Lemma committed_handleSortStateChange props (s : SortState) :
  committed (handleSortStateChange props s) = s.
Proof. unfold handleSortStateChange. by destruct (isControlledState props). Qed.

Lemma isControlledState_withoutControl props :
  isControlledState (withoutControl props) = false.
Proof. done. Qed.

(** C8: the mode is controlled exactly when both [sortState] and
    [onSortStateChange] are supplied.  With both, every operation is the
    controlled one: the sort state is read from the [sortState] prop,
    whatever the internal state, a new sort state goes to the callback and
    the internal state stays, and [getSortedData] returns [data].  With
    only one of them every operation is the one of the fully uncontrolled
    configuration: the internal state is read, and written by [setState],
    and the callback and the owner are left alone. *)
Theorem controlled_iff_both_supplied props :
  (isControlledState props = true ↔
     is_Some (sortState props) ∧ is_Some (onSortStateChange props)) ∧
  (∀ s callback,
     sortState props = Some s → onSortStateChange props = Some callback →
     ∀ native state newSortState col event h owner,
       getSortState props state = s ∧
       handleSortStateChange props newSortState
         = CallOnSortStateChange newSortState ∧
       perform props state (handleSortStateChange props newSortState) owner
         = (state, callback newSortState owner) ∧
       handleColumnSortClick props state col event
         = CallOnSortStateChange
             (committed (handleColumnSortClick (withoutControl props)
                           {| sort := s |} col event)) ∧
       click props col event (state, owner)
         = (state,
            callback
              (committed (handleColumnSortClick (withoutControl props)
                            {| sort := s |} col event))
              owner) ∧
       getSortedData native props state h = Some (data props, h) ∧
       renderSortableName props state col
         = renderSortableName (withoutControl props) {| sort := s |} col) ∧
  ((is_Some (sortState props) ∧ onSortStateChange props = None) ∨
   (sortState props = None ∧ is_Some (onSortStateChange props)) →
   isControlledState props = false ∧
   ∀ native state newSortState col event h owner,
     getSortState props state = sort state ∧
     handleSortStateChange props newSortState
       = SetState {| sort := newSortState |} ∧
     perform props state (handleSortStateChange props newSortState) owner
       = ({| sort := newSortState |}, owner) ∧
     handleColumnSortClick props state col event
       = handleColumnSortClick (withoutControl props) state col event ∧
     click props col event (state, owner)
       = ({| sort := committed (handleColumnSortClick (withoutControl props)
                                  state col event) |}, owner) ∧
     getSortedData native props state h
       = getSortedData native (withoutControl props) state h ∧
     renderSortableName props state col
       = renderSortableName (withoutControl props) state col).
Proof.
  split; [apply isControlledState_true|]. split.
  - intros s callback Hs Hc native state newSortState col event h owner.
    assert (isControlledState props = true) as Hmode
      by (unfold isControlledState; by rewrite Hs, Hc).
    unfold click, perform, handleColumnSortClick, getSortedData,
      renderSortableName, getSortState, handleSortStateChange.
    rewrite isControlledState_withoutControl, Hmode, Hs, Hc. simpl.
    split_and!; try done.
    + destruct (negb (shiftKey event)); [done|].
      by destruct (JS.at_index _ _).
    + destruct (negb (shiftKey event)); [done|].
      by destruct (JS.at_index _ _).
  - intros Hpartial.
    assert (isControlledState props = false) as Hmode.
    { unfold isControlledState.
      destruct Hpartial as [[_ ->]|[-> _]]; [by destruct (sortState props)|done]. }
    split; [done|]. intros native state newSortState col event h owner.
    unfold click, perform, handleColumnSortClick, getSortedData,
      renderSortableName, getSortState, handleSortStateChange.
    rewrite isControlledState_withoutControl, Hmode. simpl.
    split_and!; try done.
    destruct (negb (shiftKey event)); [done|].
    by destruct (JS.at_index _ _).
Qed.

(** C4: in controlled mode, whatever the sort state, and whenever the
    current sort state is empty, [getSortedData] returns the reference
    [data] itself and allocates or changes no array. *)
Theorem getSortedData_returns_data_reference
    (native : Comparator Item → list Item → list Item) props state
    (h : Heap.t Item) :
  isControlledState props = true ∨ getSortState props state = [] →
  getSortedData native props state h = Some (data props, h).
Proof.
  intros [Hmode|Hempty]; unfold getSortedData.
  - by rewrite Hmode.
  - rewrite Hempty. simpl. by rewrite orb_true_r.
Qed.
End Modes.

(** Controlled mode with two active keys: the data reference comes back. *)
Lemma getSortedData_controlled_sample :
  let current :=
    [{| column := "rank"; order := desc |}; {| column := "name"; order := asc |}] in
  (isControlledState (Sample.controlled current) = true ∨
   getSortState (Sample.controlled current) {| sort := [] |} = []) ∧
  getSortedData insertion_sort (Sample.controlled current) {| sort := [] |}
    Sample.heap = Some (0%nat, Sample.heap).
Proof.
  intros current.
  assert (isControlledState (Sample.controlled current) = true ∨
          getSortState (Sample.controlled current) {| sort := [] |} = []) as H
    by (left; reflexivity).
  split; [exact H|].
  exact (getSortedData_returns_data_reference insertion_sort
           (Sample.controlled current) {| sort := [] |} Sample.heap H).
Defined.

(** With [sortState] alone the internal state is read and written; with
    the callback as well, the prop is read and the callback is called. *)
Lemma partial_configuration_sample :
  let state := {| sort := [{| column := "rank"; order := desc |}] |} in
  let s := [{| column := "name"; order := asc |}] in
  (isControlledState Sample.partial = false ∧
   getSortState Sample.partial state = [{| column := "rank"; order := desc |}] ∧
   perform Sample.partial state (handleSortStateChange Sample.partial []) []
   = ({| sort := [] |}, [])) ∧
  (sortState (Sample.controlled s) = Some s ∧
   onSortStateChange (Sample.controlled s) = Some Sample.record ∧
   getSortState (Sample.controlled s) state = s ∧
   perform (Sample.controlled s) state
     (handleSortStateChange (Sample.controlled s) []) []
   = (state, [[]])).
Proof.
  intros state s. split.
  - destruct (controlled_iff_both_supplied Sample.partial) as (_ & _ & Hpartial).
    destruct Hpartial as [Hmode Hops];
      [left; split; [by eexists|reflexivity]|].
    destruct (Hops insertion_sort state [] Sample.nameColumn
                {| shiftKey := false |} Sample.heap [])
      as (Hread & _ & Hwrite & _).
    split_and!; assumption.
  - destruct (controlled_iff_both_supplied (Sample.controlled s))
      as (_ & Hboth & _).
    destruct (Hboth s Sample.record eq_refl eq_refl insertion_sort state []
                Sample.nameColumn {| shiftKey := false |} Sample.heap [])
      as (Hread & _ & Hcall & _).
    split_and!; [reflexivity|reflexivity|exact Hread|exact Hcall].
Defined.

(** ** Header clicks *)

Section Clicks.
Context {V : Type} `{!JSValue V} {Owner : Type}.
Local Abbreviation Column := (TableColumnConfig (TableDataItem V)).
Local Abbreviation WithProps := (Props (TableDataItem V) Owner).
Implicit Types (props : WithProps) (state : WithTableSortingState).
Implicit Types (col X Y : Column) (current : SortState).

(** The code's walk over [orderStack] is the 3-state cycle. *)
Lemma getNextSortForColumn_cycle col (currentState : option ColumnSortState) :
  getNextSortForColumn col currentState
  = nextEntry (column_id col)
      (cycleNext (getColumnDefaultSortOrder col) (order <$> currentState)).
Proof.
  unfold getNextSortForColumn.
  destruct (getColumnDefaultSortOrder col), currentState as [[c []]|];
    reflexivity.
Qed.

Lemma nextEntry_length (name : string) (next : option ColumnSortOrder) :
  (length (nextEntry name next) ≤ 1)%nat.
Proof. destruct next; simpl; lia. Qed.

Lemma nextEntry_column (name : string) (next : option ColumnSortOrder) :
  Forall (λ s, column s = name) (nextEntry name next).
Proof. destruct next; simpl; by repeat constructor. Qed.

Lemma cycleNext_opposite (d : ColumnSortOrder) :
  cycleNext d None = Some d ∧
  cycleNext d (Some d) = Some (opposite d) ∧
  cycleNext d (Some (opposite d)) = None.
Proof. by destruct d. Qed.

Lemma activeOrder_singleton (name : string) (o : ColumnSortOrder) :
  activeOrder name [{| column := name; order := o |}] = Some o.
Proof. unfold activeOrder. simpl. by rewrite String.eqb_refl. Qed.

Lemma handleColumnSortClick_plain props state col event :
  shiftKey event = false →
  handleColumnSortClick props state col event
  = handleSortStateChange props
      (plainClick (column_id col) (getColumnDefaultSortOrder col)
                  (getSortState props state)).
Proof.
  intros Hplain. unfold handleColumnSortClick. rewrite Hplain. simpl.
  by rewrite at_index_findIndex, getNextSortForColumn_cycle.
Qed.

(** With the modifier the code cuts out the first entry for the column
    and appends the next one. *)
Lemma handleColumnSortClick_shift props state col event :
  shiftKey event = true →
  handleColumnSortClick props state col event
  = handleSortStateChange props
      (match JS.find (λ s, String.eqb (column s) (column_id col))
               (getSortState props state) with
       | Some found =>
           let cut := JS.findIndex (λ s, String.eqb (column s) (column_id col))
                        (getSortState props state) in
           JS.slice (getSortState props state) 0 cut
             ++ JS.slice_from (getSortState props state) (cut + 1)
       | None => getSortState props state
       end
       ++ nextEntry (column_id col)
            (cycleNext (getColumnDefaultSortOrder col)
               (activeOrder (column_id col) (getSortState props state)))).
Proof.
  intros Hshift. unfold handleColumnSortClick. rewrite Hshift. simpl.
  rewrite at_index_findIndex, getNextSortForColumn_cycle. unfold activeOrder.
  destruct (JS.find _ _); [|done]. simpl. by rewrite <- app_assoc.
Qed.

Lemma filter_all {A : Type} (P : A → Prop) `{!∀ x, Decision (P x)}
    (l : list A) :
  Forall P l → filter P l = l.
Proof.
  induction 1 as [|x l Hx _ IH]; [done|].
  by rewrite filter_cons_True, IH.
Qed.

Lemma withoutColumn_split (name : string) (pre post : SortState)
    (found : ColumnSortState) :
  Forall (λ s, String.eqb (column s) name = false) pre →
  String.eqb (column found) name = true →
  NoDup (column <$> pre ++ found :: post) →
  withoutColumn name (pre ++ found :: post) = pre ++ post.
Proof.
  intros Hpre Hfound%String.eqb_eq Hnodup. unfold withoutColumn.
  rewrite filter_app, filter_cons_False by (by intros ?). f_equal.
  - apply filter_all. eapply Forall_impl; [exact Hpre|].
    intros s Hs Heq. simpl in Hs. by rewrite Heq, String.eqb_refl in Hs.
  - apply filter_all. apply Forall_forall. intros s Hin Hs.
    rewrite fmap_app, fmap_cons in Hnodup.
    apply NoDup_app in Hnodup as (_ & _ & Hnodup).
    apply NoDup_cons in Hnodup as [Hnotin _].
    apply Hnotin. rewrite Hfound, <- Hs. by apply list_elem_of_fmap_2.
Qed.

Lemma withoutColumn_absent (name : string) current :
  JS.find (λ s, String.eqb (column s) name) current = None →
  withoutColumn name current = current.
Proof.
  intros Hnone%find_None. apply filter_all.
  eapply Forall_impl; [exact Hnone|].
  intros s Hs Heq. simpl in Hs. by rewrite Heq, String.eqb_refl in Hs.
Qed.

Lemma handleColumnSortClick_shift_valid props state col event :
  shiftKey event = true →
  NoDup (column <$> getSortState props state) →
  handleColumnSortClick props state col event
  = handleSortStateChange props
      (shiftClick (column_id col) (getColumnDefaultSortOrder col)
                  (getSortState props state)).
Proof.
  intros Hshift Hnodup. rewrite handleColumnSortClick_shift by done.
  unfold shiftClick. f_equal. f_equal.
  destruct (JS.find _ _) as [found|] eqn:Hfind.
  - apply find_Some in Hfind as (pre & post & Hsplit & Hfound & Hpre).
    rewrite Hsplit in *. simpl.
    rewrite findIndex_found, slice_before, slice_after by done.
    by rewrite withoutColumn_split.
  - by rewrite withoutColumn_absent.
Qed.

Lemma withoutColumn_NoDup (name : string) current :
  NoDup (column <$> current) → NoDup (column <$> withoutColumn name current).
Proof.
  intros Hnodup. apply (sublist_NoDup _ (column <$> current)); [done|].
  apply fmap_sublist, sublist_filter; apply _.
Qed.

Lemma shiftClick_NoDup (name : string) (d : ColumnSortOrder) current :
  NoDup (column <$> current) → NoDup (column <$> shiftClick name d current).
Proof.
  intros Hnodup. unfold shiftClick. rewrite fmap_app.
  apply NoDup_app. split_and!.
  - by apply withoutColumn_NoDup.
  - intros c (s & -> & [Hs _]%list_elem_of_filter)%list_elem_of_fmap.
    intros (s' & Hc & Hs')%list_elem_of_fmap.
    pose proof (nextEntry_column name
      (cycleNext d (activeOrder name current))) as Hall.
    rewrite Forall_forall in Hall. apply Hall in Hs'. congruence.
  - destruct (cycleNext _ _); simpl; [apply NoDup_singleton|apply NoDup_nil_2].
Qed.

Lemma plainClick_NoDup (name : string) (d : ColumnSortOrder) current :
  NoDup (column <$> plainClick name d current).
Proof.
  unfold plainClick. destruct (cycleNext _ _); simpl;
    [apply NoDup_singleton|apply NoDup_nil_2].
Qed.
Lemma click_uncontrolled props state col event (owner : Owner) :
  isControlledState props = false →
  click props col event (state, owner)
  = ({| sort := committed (handleColumnSortClick props state col event) |},
     owner).
Proof.
  intros Hmode. unfold click. simpl.
  destruct (shiftKey event) eqn:Hshift.
  - rewrite handleColumnSortClick_shift by done.
    unfold handleSortStateChange. by rewrite Hmode.
  - rewrite handleColumnSortClick_plain by done.
    unfold handleSortStateChange. by rewrite Hmode.
Qed.

Lemma getColumnDefaultSortOrder_desc col :
  getColumnDefaultSortOrder col = desc ↔
  ∃ m, column_meta col = Some m ∧ meta_defaultSortOrder m = Some desc.
Proof.
  unfold getColumnDefaultSortOrder. split.
  - destruct (column_meta col) as [m|]; [|done].
    destruct (meta_defaultSortOrder m) as [[]|] eqn:Hm; try done. by exists m.
  - by intros (m & -> & ->).
Qed.

(** C2: a click on the header of [X] without the modifier commits, for
    every prior sort state, nothing but the next entry of [X] in the
    3-state cycle seeded by the default order of [X] (ascending unless
    the metadata says descending): with no entry for [X] that is
    [X] in its default order, and three such clicks in a row give the
    default order, then the opposite one, then the empty state. *)
Theorem plain_click_cycles props state X event :
  shiftKey event = false →
  let name := column_id X in
  let d := getColumnDefaultSortOrder X in
  let current := getSortState props state in
  let new := committed (handleColumnSortClick props state X event) in
  handleColumnSortClick props state X event = handleSortStateChange props new ∧
  new = plainClick name d current ∧
  (length new ≤ 1)%nat ∧
  Forall (λ s, column s = name) new ∧
  (d = desc ↔
     ∃ m, column_meta X = Some m ∧ meta_defaultSortOrder m = Some desc) ∧
  (activeOrder name current = None →
     new = [{| column := name; order := d |}]) ∧
  (current = [{| column := name; order := d |}] →
     new = [{| column := name; order := opposite d |}]) ∧
  (current = [{| column := name; order := opposite d |}] → new = []) ∧
  (isControlledState props = false →
   activeOrder name (sort state) = None →
   ∀ owner,
     let once := click props X event (state, owner) in
     let twice := click props X event once in
     let thrice := click props X event twice in
     once = ({| sort := [{| column := name; order := d |}] |}, owner) ∧
     twice = ({| sort := [{| column := name; order := opposite d |}] |}, owner) ∧
     thrice = ({| sort := [] |}, owner)).
Proof.
  intros Hplain name d current new.
  assert (new = plainClick name d current) as Hnew.
  { subst new. rewrite handleColumnSortClick_plain by done.
    apply committed_handleSortStateChange. }
  assert (∀ o, plainClick name d [{| column := name; order := o |}]
               = nextEntry name (cycleNext d (Some o))) as Hone.
  { intros o. unfold plainClick. by rewrite activeOrder_singleton. }
  destruct (cycleNext_opposite d) as (Hnone & Hdefault & Hopposite).
  split_and!.
  - rewrite Hnew. by apply handleColumnSortClick_plain.
  - done.
  - rewrite Hnew. apply nextEntry_length.
  - rewrite Hnew. apply nextEntry_column.
  - apply getColumnDefaultSortOrder_desc.
  - intros Hactive. rewrite Hnew. unfold plainClick.
    by rewrite Hactive, Hnone.
  - intros Hcurrent. by rewrite Hnew, Hcurrent, Hone, Hdefault.
  - intros Hcurrent. by rewrite Hnew, Hcurrent, Hone, Hopposite.
  - intros Hmode Hactive owner. simpl.
    assert (∀ st, click props X event (st, owner)
                  = ({| sort := plainClick name d (sort st) |}, owner)) as Hclick.
    { intros st. rewrite click_uncontrolled by done.
      rewrite handleColumnSortClick_plain by done.
      rewrite committed_handleSortStateChange.
      unfold getSortState. by rewrite Hmode. }
    assert (plainClick name d (sort state)
            = [{| column := name; order := d |}]) as Hfirst.
    { unfold plainClick. by rewrite Hactive, Hnone. }
    rewrite !Hclick. simpl. rewrite Hfirst.
    rewrite (Hone d), Hdefault. simpl.
    by rewrite (Hone (opposite d)), Hopposite.
Qed.

(** C3, amended: for a prior sort state without duplicate column
    identifiers, a click on the header of [Y] with the modifier removes
    the entry for [Y] and appends the next cycle entry of [Y], if any:
    [Y] is then the last key, or absent when the cycle reaches "none";
    the other entries keep their order; after [{X, asc}] alone the
    result is [{X, asc}, {Y, default order of Y}]. *)
Theorem shift_click_reappends props state Y event :
  shiftKey event = true →
  NoDup (column <$> getSortState props state) →
  let name := column_id Y in
  let d := getColumnDefaultSortOrder Y in
  let current := getSortState props state in
  let next := cycleNext d (activeOrder name current) in
  let new := committed (handleColumnSortClick props state Y event) in
  handleColumnSortClick props state Y event = handleSortStateChange props new ∧
  new = withoutColumn name current ++ nextEntry name next ∧
  withoutColumn name new = withoutColumn name current ∧
  (∀ o, next = Some o →
     new = withoutColumn name current ++ [{| column := name; order := o |}]) ∧
  (next = None → new = withoutColumn name current ∧
                 Forall (λ s, column s ≠ name) new) ∧
  (∀ other, other ≠ name →
     current = [{| column := other; order := asc |}] →
     new = [{| column := other; order := asc |};
            {| column := name; order := d |}]).
Proof.
  intros Hshift Hnodup name d current next new.
  assert (new = withoutColumn name current ++ nextEntry name next) as Hnew.
  { subst new. rewrite handleColumnSortClick_shift_valid by done.
    apply committed_handleSortStateChange. }
  assert (Forall (λ s, column s ≠ name) (withoutColumn name current)) as Hothers.
  { apply Forall_forall. by intros s [? _]%list_elem_of_filter. }
  split_and!.
  - rewrite Hnew. by apply handleColumnSortClick_shift_valid.
  - done.
  - rewrite Hnew. unfold withoutColumn at 1. rewrite filter_app.
    replace (filter _ (nextEntry name next)) with (@nil ColumnSortState).
    + rewrite app_nil_r. by apply filter_all.
    + destruct next; simpl; [|done]. by rewrite filter_cons_False by (by intros ?).
  - intros o Hnext. by rewrite Hnew, Hnext.
  - intros Hnext. rewrite Hnew, Hnext. simpl. by rewrite app_nil_r.
  - intros other Hother Hcurrent. rewrite Hnew. subst next.
    rewrite Hcurrent. unfold withoutColumn, activeOrder. simpl.
    rewrite filter_cons_True by done.
    destruct (String.eqb_spec other name) as [?|_]; [done|].
    simpl. by destruct (cycleNext_opposite d) as (-> & _ & _).
Qed.

(** C5: from a sort state without duplicate column identifiers every
    click, with or without the modifier, commits a sort state without
    duplicate column identifiers. *)
Theorem click_keeps_columns_distinct props state col event :
  NoDup (column <$> getSortState props state) →
  NoDup (column <$> committed (handleColumnSortClick props state col event)) ∧
  (isControlledState props = false →
   ∀ owner, NoDup (column <$> sort (click props col event (state, owner)).1)).
Proof.
  intros Hnodup.
  assert (NoDup (column <$> committed
            (handleColumnSortClick props state col event))) as Hnew.
  { destruct (shiftKey event) eqn:Hshift.
    - rewrite handleColumnSortClick_shift_valid by done.
      rewrite committed_handleSortStateChange. by apply shiftClick_NoDup.
    - rewrite handleColumnSortClick_plain by done.
      rewrite committed_handleSortStateChange. apply plainClick_NoDup. }
  split; [done|]. intros Hmode owner. by rewrite click_uncontrolled.
Qed.
End Clicks.

(** Three clicks on the rank header, whose default order is descending,
    while the table is sorted by name. *)
Lemma plain_click_rank_sample :
  let X := Sample.rankColumn in
  let event := {| shiftKey := false |} in
  let state := {| sort := [{| column := "name"; order := asc |}] |} in
  let once := click Sample.uncontrolled X event (state, []) in
  let twice := click Sample.uncontrolled X event once in
  let thrice := click Sample.uncontrolled X event twice in
  shiftKey event = false ∧
  once = ({| sort := [{| column := "rank"; order := desc |}] |}, []) ∧
  twice = ({| sort := [{| column := "rank"; order := asc |}] |}, []) ∧
  thrice = ({| sort := [] |}, []).
Proof.
  intros X event state once twice thrice.
  split; [reflexivity|].
  destruct (plain_click_cycles Sample.uncontrolled state X event eq_refl)
    as (_ & _ & _ & _ & _ & _ & _ & _ & H).
  apply H; reflexivity.
Defined.

(** A sort state that names a column twice: the click with the modifier
    cuts out the first of the two entries only, so the column stays although
    its cycle has reached "none". *)
Lemma shift_click_duplicate_entries :
  let current :=
    [{| column := "name"; order := desc |}; {| column := "name"; order := asc |}] in
  let new :=
    committed (handleColumnSortClick Sample.uncontrolled {| sort := current |}
                 Sample.nameColumn {| shiftKey := true |}) in
  cycleNext asc (activeOrder "name" current) = None ∧
  new = [{| column := "name"; order := asc |}] ∧
  new ≠ shiftClick "name" asc current.
Proof. intros current new. split_and!; [reflexivity|reflexivity|discriminate]. Qed.

(** The modifier click on the name header while the table is sorted by
    rank. *)
Lemma shift_click_name_sample :
  let event := {| shiftKey := true |} in
  let state := {| sort := [{| column := "rank"; order := asc |}] |} in
  shiftKey event = true ∧
  NoDup (column <$> getSortState Sample.uncontrolled state) ∧
  committed (handleColumnSortClick Sample.uncontrolled state Sample.nameColumn event)
  = [{| column := "rank"; order := asc |}; {| column := "name"; order := asc |}].
Proof.
  intros event state.
  assert (NoDup (column <$> getSortState Sample.uncontrolled state)) as Hnodup
    by (apply (bool_decide_unpack _); vm_compute; reflexivity).
  split; [reflexivity|]. split; [exact Hnodup|].
  destruct (shift_click_reappends Sample.uncontrolled state Sample.nameColumn
              event eq_refl Hnodup) as (_ & _ & _ & _ & _ & H).
  apply (H "rank"); [discriminate|reflexivity].
Defined.

(** The modifier click on an active column of a two-key state. *)
Lemma click_distinct_sample :
  let event := {| shiftKey := true |} in
  let state :=
    {| sort := [{| column := "name"; order := asc |};
                {| column := "rank"; order := desc |}] |} in
  NoDup (column <$> getSortState Sample.uncontrolled state) ∧
  NoDup (column <$> committed
           (handleColumnSortClick Sample.uncontrolled state Sample.nameColumn event)).
Proof.
  intros event state.
  assert (NoDup (column <$> getSortState Sample.uncontrolled state)) as Hnodup
    by (apply (bool_decide_unpack _); vm_compute; reflexivity).
  split; [exact Hnodup|].
  exact (proj1 (click_keeps_columns_distinct Sample.uncontrolled state
                  Sample.nameColumn event Hnodup)).
Defined.

(** ** The comparison chain *)

Section Comparison.
Context {V : Type} `{!JSValue V}.
Local Abbreviation Item := (TableDataItem V).
Local Abbreviation Column := (TableColumnConfig (TableDataItem V)).
Implicit Types (cols : list Column) (current rest : SortState).
Implicit Types (state : ColumnSortState) (itemA itemB : Item).

Lemma entryComparator_None cols state :
  entryComparator cols state = None ↔
  truthy_sort (sort_of (columnOf cols state)) = false.
Proof.
  unfold entryComparator, columnOf.
  by destruct (sort_of _) as [[[]|f]|].
Qed.

(** One round of the loop. *)
Lemma compareItems_cons cols state rest itemA itemB :
  compareItems cols (state :: rest) itemA itemB
  = match entryComparator cols state with
    | None => compareItems cols rest itemA itemB
    | Some compare =>
        if compare itemA itemB =? 0 then compareItems cols rest itemA itemB
        else directed (order state) compare itemA itemB
    end.
Proof.
  unfold entryComparator, directed. simpl.
  destruct (sort_of _) as [[[]|f]|]; simpl; try done.
  - by destruct (_ =? 0).
  - by destruct (_ =? 0).
Qed.

Lemma compareItems_skip cols state rest itemA itemB :
  entryComparator cols state = None →
  compareItems cols (state :: rest) itemA itemB
  = compareItems cols rest itemA itemB.
Proof. intros Hnone. by rewrite compareItems_cons, Hnone. Qed.

Lemma compareItems_effective cols current itemA itemB :
  compareItems cols current itemA itemB
  = compareItems cols
      (filter (λ s, is_Some (entryComparator cols s)) current) itemA itemB.
Proof.
  induction current as [|state rest IH]; [done|].
  destruct (entryComparator cols state) as [compare|] eqn:Hstate.
  - rewrite filter_cons_True by (by rewrite Hstate).
    by rewrite !compareItems_cons, Hstate, IH.
  - rewrite filter_cons_False by (rewrite Hstate; by intros [? ?]).
    by rewrite compareItems_skip.
Qed.

Lemma compareItems_all_tie cols current itemA itemB :
  Forall (λ s, ∀ compare, entryComparator cols s = Some compare →
                          compare itemA itemB = 0) current →
  compareItems cols current itemA itemB = 0.
Proof.
  induction 1 as [|state rest Hstate _ IH]; [done|].
  rewrite compareItems_cons.
  destruct (entryComparator cols state) as [compare|]; [|done].
  by rewrite (Hstate compare eq_refl).
Qed.

(** C6: an entry whose column declares no comparison capability (no
    column of that identifier, no [meta], no [meta.sort], or a false
    one) is skipped wherever it stands: the result is that of the sort
    state without such entries, no generic comparison stands in for the
    missing one, and when every entry ties or is skipped the rows
    compare equal. *)
Theorem entries_without_comparator_are_skipped cols itemA itemB :
  (∀ state, truthy_sort (sort_of (columnOf cols state)) = false ↔
            entryComparator cols state = None) ∧
  (∀ state, sort_of (columnOf cols state) = None →
            entryComparator cols state = None) ∧
  (∀ before state rest,
     entryComparator cols state = None →
     compareItems cols (before ++ state :: rest) itemA itemB
     = compareItems cols (before ++ rest) itemA itemB) ∧
  (∀ current,
     compareItems cols current itemA itemB
     = compareItems cols
         (filter (λ s, is_Some (entryComparator cols s)) current)
         itemA itemB) ∧
  (∀ current,
     Forall (λ s, ∀ compare, entryComparator cols s = Some compare →
                             compare itemA itemB = 0) current →
     compareItems cols current itemA itemB = 0).
Proof.
  split_and!.
  - intros state. symmetry. apply entryComparator_None.
  - intros state Hsort. apply entryComparator_None. by rewrite Hsort.
  - intros before state rest Hnone.
    rewrite (compareItems_effective cols (before ++ state :: rest)).
    rewrite (compareItems_effective cols (before ++ rest)).
    rewrite !filter_app, filter_cons_False; [done|].
    rewrite Hnone. by intros [? ?].
  - intros current. apply compareItems_effective.
  - intros current. apply compareItems_all_tie.
Qed.
End Comparison.

(** The note column declares no comparator: its entry does not count. *)
Lemma skipped_entry_sample :
  let a := Sample.row (Primitive.Num 1) (Primitive.Num 20) in
  let b := Sample.row (Primitive.Num 2) (Primitive.Num 10) in
  let note := {| column := "note"; order := asc |} in
  let rank := {| column := "rank"; order := asc |} in
  entryComparator (columns Sample.uncontrolled) note = None ∧
  compareItems (columns Sample.uncontrolled) [note; rank] a b
  = compareItems (columns Sample.uncontrolled) [rank] a b.
Proof.
  intros a b note rank.
  destruct (entries_without_comparator_are_skipped
              (columns Sample.uncontrolled) a b) as (_ & _ & Hskip & _).
  split; [reflexivity|]. apply (Hskip [] note [rank]). reflexivity.
Defined.

(** ** Decorated columns *)

Section Decoration.
Context {V : Type} `{!JSValue V} {Owner : Type}.
Local Abbreviation Column := (TableColumnConfig (TableDataItem V)).
Local Abbreviation WithProps := (Props (TableDataItem V) Owner).
Implicit Types (props : WithProps) (state : WithTableSortingState).
Implicit Types (col : Column) (cols : list Column).





End Decoration.



(** ** Sorting *)

Section InsertionSort.
Context {I : Type}.
Implicit Types (compare : Comparator I) (l : list I) (x e : I).

Lemma consistent_on_tie_sym compare l a b :
  consistent_on l compare → a ∈ l → b ∈ l →
  compare a b = 0 → compare b a = 0.
Proof. intros [Hsign _] Ha Hb Hab. specialize (Hsign a b Ha Hb). lia. Qed.

(** Two elements that tie with a third tie with one another. *)
Lemma consistent_on_tie_trans compare l e a b :
  consistent_on l compare → e ∈ l → a ∈ l → b ∈ l →
  compare e a = 0 → compare e b = 0 → compare a b = 0.
Proof.
  intros Hcons He Ha Hb Hea Heb.
  pose proof (consistent_on_tie_sym _ _ _ _ Hcons He Ha Hea) as Hae.
  pose proof (consistent_on_tie_sym _ _ _ _ Hcons He Hb Heb) as Hbe.
  destruct Hcons as [Hsign Htrans].
  assert (compare a b ≤ 0) by (apply (Htrans a e b); auto; lia).
  assert (compare b a ≤ 0) by (apply (Htrans b e a); auto; lia).
  specialize (Hsign a b Ha Hb). lia.
Qed.

Lemma insert_Permutation compare x l : insert compare x l ≡ₚ x :: l.
Proof.
  induction l as [|y l IH]; simpl; [done|].
  destruct (compare x y <=? 0); [done|].
  by rewrite IH, Permutation_swap.
Qed.

Lemma insertion_sort_Permutation compare l : insertion_sort compare l ≡ₚ l.
Proof.
  induction l as [|x l IH]; simpl; [done|].
  by rewrite insert_Permutation, IH.
Qed.

(** Insertion among elements of [u], on which the comparator is
    consistent. *)
Lemma insert_ordered compare (u : list I) x l :
  consistent_on u compare → x ∈ u → Forall (λ y, y ∈ u) l →
  ordered_by compare l → ordered_by compare (insert compare x l).
Proof.
  intros [Hsign Htrans] Hx Hl Hsorted. unfold ordered_by in *.
  induction Hsorted as [|y l Hsorted IH Hy]; simpl.
  - repeat constructor.
  - apply Forall_cons in Hl as [Hyu Hl]. rewrite Forall_forall in Hy, Hl.
    destruct (Z.leb_spec (compare x y) 0) as [Hxy|Hxy].
    + constructor; [by constructor; [|apply Forall_forall]|].
      constructor; [done|]. apply Forall_forall. intros z Hz.
      apply (Htrans x y z); auto.
    + constructor; [apply IH; by apply Forall_forall|].
      apply Forall_forall. intros z Hz.
      rewrite insert_Permutation in Hz.
      apply elem_of_cons in Hz as [->|Hz]; [|by apply Hy].
      specialize (Hsign x y Hx Hyu). lia.
Qed.

Lemma insert_ties compare (u : list I) x l e :
  consistent_on u compare → x ∈ u → e ∈ u → Forall (λ y, y ∈ u) l →
  ties compare e (insert compare x l) = ties compare e (x :: l).
Proof.
  intros Hcons Hx He Hl. unfold ties.
  induction Hl as [|y l Hy Hl IH]; simpl; [done|].
  destruct (Z.leb_spec (compare x y) 0) as [Hxy|Hxy]; [done|].
  rewrite (filter_cons _ y (insert compare x l)), IH.
  rewrite (filter_cons _ x (y :: l)), (filter_cons _ x l), (filter_cons _ y l).
  destruct (decide (compare e x = 0)) as [Hex|Hex],
           (decide (compare e y = 0)) as [Hey|Hey]; try done.
  assert (compare x y = 0); [|lia].
  by apply (consistent_on_tie_trans compare u e).
Qed.

Lemma insertion_sort_in compare (u : list I) l :
  Forall (λ y, y ∈ u) l → Forall (λ y, y ∈ u) (insertion_sort compare l).
Proof. intros Hl. by rewrite insertion_sort_Permutation. Qed.

Lemma StronglySorted_weaken (R R' : I → I → Prop) l :
  (∀ a b, R a b → R' a b) → StronglySorted R l → StronglySorted R' l.
Proof.
  intros HR. induction 1 as [|x l _ IH Hx]; constructor; [done|].
  eapply Forall_impl; [exact Hx|]. auto.
Qed.

Lemma insertion_sort_permutes : sort_permutes (@insertion_sort I).
Proof. intros compare l. apply insertion_sort_Permutation. Qed.

Lemma insertion_sort_orders : sort_orders (@insertion_sort I).
Proof.
  intros compare l Hcons.
  assert (Forall (λ y, y ∈ l) l) as Hl by (by apply Forall_forall).
  revert Hl. generalize l at 2 3. intros k Hk.
  induction Hk as [|x k Hx Hk IH]; simpl; [constructor|].
  apply (insert_ordered compare l); auto using insertion_sort_in.
Qed.

Lemma insertion_sort_stable : sort_stable (@insertion_sort I).
Proof.
  intros compare l Hcons e He.
  assert (Forall (λ y, y ∈ l) l) as Hl by (by apply Forall_forall).
  revert Hl. generalize l at 2 3 4. intros k Hk.
  induction Hk as [|x k Hx Hk IH]; simpl; [done|].
  rewrite (insert_ties compare l) by auto using insertion_sort_in.
  unfold ties in *. by rewrite !filter_cons, IH.
Qed.
End InsertionSort.

(** ** A sort that reverses descending runs *)

Section RunSort.
Context {I : Type}.
Implicit Types (compare : Comparator I) (l u : list I) (x e : I).

Lemma consistent_on_strict_trans compare u (a b c : I) :
  consistent_on u compare → a ∈ u → b ∈ u → c ∈ u →
  compare b a < 0 → compare c b < 0 → compare c a < 0.
Proof.
  intros [Hsign Htrans] Ha Hb Hc Hba Hcb.
  pose proof (Htrans c b a Hc Hb Ha).
  pose proof (Htrans a c b Ha Hc Hb).
  pose proof (Hsign a c Ha Hc). pose proof (Hsign a b Ha Hb). lia.
Qed.

(** Under a consistent comparator the elements of a descending run are
    pairwise strictly descending. *)
Lemma descending_pairwise compare u l :
  consistent_on u compare → Forall (λ y, y ∈ u) l →
  descending compare l = true →
  StronglySorted (λ x y, compare y x < 0) l.
Proof.
  intros Hcons Hl. induction Hl as [|x l Hx Hl IH]; [constructor|].
  destruct l as [|y l]; [repeat constructor|].
  simpl. intros [Hyx Hrest]%andb_true_iff. apply Z.ltb_lt in Hyx.
  specialize (IH Hrest). constructor; [done|].
  apply Forall_cons in Hl as [Hy Hl].
  apply StronglySorted_inv in IH as [_ Hbelow]. constructor; [done|].
  rewrite Forall_forall in Hbelow, Hl. apply Forall_forall. intros z Hz.
  by apply (consistent_on_strict_trans compare u x y z); auto.
Qed.

Lemma filter_none (P : I → Prop) `{!∀ x, Decision (P x)} l :
  Forall (λ x, ¬ P x) l → filter P l = [].
Proof.
  induction 1 as [|x l Hx _ IH]; [done|].
  by rewrite filter_cons_False.
Qed.

(** No two elements of such a run tie with the same element. *)
Lemma descending_ties compare u l e :
  consistent_on u compare → Forall (λ y, y ∈ u) l → e ∈ u →
  StronglySorted (λ x y, compare y x < 0) l →
  (length (ties compare e l) ≤ 1)%nat.
Proof.
  intros Hcons Hl He Hsorted. unfold ties.
  induction Hsorted as [|x l _ IH Hx]; [simpl; lia|].
  apply Forall_cons in Hl as [Hxu Hl]. specialize (IH Hl).
  rewrite filter_cons. destruct (decide (compare e x = 0)) as [Hex|]; [|done].
  replace (filter (λ y, compare e y = 0) l) with (@nil I); [simpl; lia|].
  symmetry. apply filter_none.
  rewrite Forall_forall in Hx, Hl. apply Forall_forall. intros z Hz Hez.
  pose proof (consistent_on_tie_trans compare u e x z Hcons He Hxu
                (Hl z Hz) Hex Hez).
  destruct Hcons as [Hsign _].
  specialize (Hsign x z Hxu (Hl z Hz)). specialize (Hx z Hz). lia.
Qed.

Lemma run_sort_permutes : sort_permutes (@run_sort I).
Proof.
  intros compare l. unfold run_sort.
  destruct (descending compare l);
    [apply reverse_Permutation|apply insertion_sort_Permutation].
Qed.

Lemma run_sort_stable : sort_stable (@run_sort I).
Proof.
  intros compare l Hcons e He. unfold run_sort.
  destruct (descending compare l) eqn:Hrun; [|by apply insertion_sort_stable].
  assert (Forall (λ y, y ∈ l) l) as Hl by (by apply Forall_forall).
  pose proof (descending_ties compare l l e Hcons Hl He
                (descending_pairwise compare l l Hcons Hl Hrun)) as Hone.
  unfold ties in *. rewrite filter_reverse.
  destruct (filter _ l) as [|a [|b rest]]; [done|done|simpl in Hone; lia].
Qed.

Lemma run_sort_orders : sort_orders (@run_sort I).
Proof.
  intros compare l Hcons. unfold run_sort.
  destruct (descending compare l) eqn:Hrun; [|by apply insertion_sort_orders].
  assert (Forall (λ y, y ∈ l) l) as Hl by (by apply Forall_forall).
  pose proof (descending_pairwise compare l l Hcons Hl Hrun) as Hsorted.
  unfold ordered_by. clear Hrun Hl Hcons.
  induction Hsorted as [|x k _ IH Hx]; [constructor|].
  rewrite reverse_cons. apply StronglySorted_app_2; [|done|repeat constructor].
  intros a b Ha Hb%list_elem_of_singleton. subst b.
  rewrite elem_of_reverse in Ha.
  rewrite Forall_forall in Hx. specialize (Hx a Ha). lia.
Qed.
End RunSort.

(** ** The sorted data *)

Section SortedData.
Context {V : Type} `{!JSValue V} {Owner : Type}.
Local Abbreviation Item := (TableDataItem V).
Local Abbreviation Column := (TableColumnConfig (TableDataItem V)).
Local Abbreviation WithProps := (Props (TableDataItem V) Owner).
Implicit Types (props : WithProps) (state : WithTableSortingState).
Implicit Types (cols : list Column) (current : SortState).
Implicit Types (h : Heap.t Item) (rows out : list Item).
Implicit Types (native : Comparator Item → list Item → list Item).

(** The rows compare equal exactly when every key ties. *)
Lemma compareItems_zero cols current (itemA itemB : Item) :
  compareItems cols current itemA itemB = 0 ↔
  Forall (λ s, ∀ compare, entryComparator cols s = Some compare →
                          compare itemA itemB = 0) current.
Proof.
  split; [|apply compareItems_all_tie].
  induction current as [|s rest IH]; [by constructor|].
  rewrite compareItems_cons.
  destruct (entryComparator cols s) as [compare|] eqn:Hs.
  - destruct (Z.eqb_spec (compare itemA itemB) 0) as [Htie|Hne].
    + intros Hrest. constructor; [|by apply IH].
      intros key Hkey. rewrite Hs in Hkey. by injection Hkey as <-.
    + unfold directed. destruct (order s); lia.
  - intros Hrest. constructor; [|by apply IH].
    intros key Hkey. by rewrite Hs in Hkey.
Qed.

(** The comparison is the lexicographic order of the keys. *)
Lemma compareItems_lex cols current (itemA itemB : Item) :
  compareItems cols current itemA itemB ≤ 0 ↔
  lex_ordered (sortKeys cols current) itemA itemB.
Proof.
  induction current as [|s rest IH]; simpl sortKeys; [done|].
  rewrite compareItems_cons.
  destruct (entryComparator cols s) as [compare|] eqn:Hs; simpl; [|done].
  rewrite <- IH. unfold directed.
  destruct (Z.eqb_spec (compare itemA itemB) 0) as [Htie|Hne];
    destruct (order s); lia.
Qed.

(** What [getSortedData] does when it sorts: the copy is the next free
    reference, and it holds the sorted rows. *)
Lemma getSortedData_sorts native props state h rows :
  isControlledState props = false →
  getSortState props state ≠ [] →
  h !! data props = Some rows →
  getSortedData native props state h
  = Some (length h,
          h ++ [native (compareItems (columns props) (getSortState props state))
                       rows]).
Proof.
  intros Hmode Hnonempty Hdata. unfold getSortedData.
  rewrite Hmode.
  replace (length (getSortState props state) =? 0)%nat with false
    by (by destruct (getSortState props state)).
  simpl. unfold Heap.slice. rewrite Hdata. simpl.
  unfold Heap.sort. rewrite lookup_app_r, Nat.sub_diag by done. simpl.
  do 2 f_equal.
  rewrite insert_app_r_alt, Nat.sub_diag by done. done.
Qed.

(** C9, amended: in uncontrolled mode with a non-empty sort state the
    sorted rows go into an array that did not exist before; [data] and
    every other array keep their contents; and if the sort is stable and
    the comparison induced by the sort entries is a consistent comparator
    on the rows, the rows that compare equal, that is on which every key
    ties, stand in the result in their original order. *)
Theorem getSortedData_sorts_a_copy native props state h rows :
  isControlledState props = false →
  getSortState props state ≠ [] →
  h !! data props = Some rows →
  let compare := compareItems (columns props) (getSortState props state) in
  ∃ copy h',
    getSortedData native props state h = Some (copy, h') ∧
    h !! copy = None ∧ copy ≠ data props ∧
    h' !! data props = Some rows ∧
    (∀ r, r ≠ copy → h' !! r = h !! r) ∧
    h' !! copy = Some (native compare rows) ∧
    (sort_stable native → consistent_on rows compare →
     ∀ e, e ∈ rows →
       ties compare e (native compare rows) = ties compare e rows ∧
       ∀ x, x ∈ ties compare e rows ↔
            x ∈ rows ∧
            Forall (λ s, ∀ key, entryComparator (columns props) s = Some key →
                                key e x = 0) (getSortState props state)).
Proof.
  intros Hmode Hnonempty Hdata compare.
  exists (length h), (h ++ [native compare rows]).
  pose proof (lookup_lt_Some _ _ _ Hdata) as Hlt.
  split_and!.
  - by apply getSortedData_sorts.
  - by apply lookup_ge_None_2.
  - lia.
  - by rewrite lookup_app_l.
  - intros r Hr. destruct (decide (r < length h)%nat).
    + by rewrite lookup_app_l.
    + rewrite !lookup_ge_None_2; [done|lia|rewrite length_app; simpl; lia].
  - by rewrite lookup_app_r, Nat.sub_diag.
  - intros Hstable Hcons e He. split; [by apply Hstable|].
    intros x. unfold ties. rewrite list_elem_of_filter.
    subst compare. rewrite compareItems_zero. tauto.
Qed.

(** C1, amended: in uncontrolled mode with a non-empty sort state, when
    the comparison induced by the sort entries is a consistent comparator
    on the rows, the rows handed to the table are in the lexicographic
    order of the entries: under a single entry with a comparator they are
    non-decreasing when it is ascending and non-increasing when it is
    descending, and under two entries the rows that tie under the first
    comparator are ordered by the second in its direction. *)
Theorem getSortedData_orders_lexicographically native props state h rows :
  sort_orders native →
  isControlledState props = false →
  getSortState props state ≠ [] →
  h !! data props = Some rows →
  consistent_on rows
    (compareItems (columns props) (getSortState props state)) →
  ∃ copy h' out,
    getSortedData native props state h = Some (copy, h') ∧
    h' !! copy = Some out ∧
    StronglySorted
      (lex_ordered (sortKeys (columns props) (getSortState props state))) out ∧
    (∀ s compare,
       getSortState props state = [s] →
       entryComparator (columns props) s = Some compare →
       match order s with
       | asc => StronglySorted (λ a b, compare a b ≤ 0) out ∧
                nondecreasing compare out
       | desc => StronglySorted (λ a b, 0 ≤ compare a b) out ∧
                 nonincreasing compare out
       end) ∧
    (∀ A B compareA compareB,
       getSortState props state = [A; B] →
       entryComparator (columns props) A = Some compareA →
       entryComparator (columns props) B = Some compareB →
       StronglySorted
         (λ a b, directed (order A) compareA a b ≤ 0 ∧
                 (compareA a b = 0 → directed (order B) compareB a b ≤ 0))
         out).
Proof.
  intros Horders Hmode Hnonempty Hdata Hcons.
  set (current := getSortState props state) in *.
  set (compare := compareItems (columns props) current) in *.
  exists (length h), (h ++ [native compare rows]), (native compare rows).
  assert (StronglySorted (lex_ordered (sortKeys (columns props) current))
            (native compare rows)) as Hlex.
  { eapply StronglySorted_weaken; [|apply (Horders compare rows Hcons)].
    intros a b Hab. by apply compareItems_lex. }
  split_and!.
  - by apply getSortedData_sorts.
  - by rewrite lookup_app_r, Nat.sub_diag.
  - done.
  - intros s key Hcurrent Hkey. rewrite Hcurrent in Hlex.
    simpl in Hlex. rewrite Hkey in Hlex. simpl in Hlex.
    unfold nondecreasing, nonincreasing.
    destruct (order s); simpl in Hlex.
    + assert (StronglySorted (λ a b, key a b ≤ 0) (native compare rows)) as H0.
      { eapply StronglySorted_weaken; [|exact Hlex]. simpl. intros a b. lia. }
      split; [done|]. by apply StronglySorted_Sorted.
    + assert (StronglySorted (λ a b, 0 ≤ key a b) (native compare rows)) as H0.
      { eapply StronglySorted_weaken; [|exact Hlex]. simpl. intros a b. lia. }
      split; [done|]. by apply StronglySorted_Sorted.
  - intros A B keyA keyB Hcurrent HA HB. rewrite Hcurrent in Hlex.
    simpl in Hlex. rewrite HA, HB in Hlex. simpl in Hlex.
    eapply StronglySorted_weaken; [|exact Hlex]. simpl.
    intros a b. unfold directed. destruct (order A), (order B); lia.
Qed.
End SortedData.

(** ** Consistent comparators *)

Section Consistency.
Context {V : Type} `{!JSValue V}.
Local Abbreviation Item := (TableDataItem V).
Local Abbreviation Column := (TableColumnConfig (TableDataItem V)).
Implicit Types (cols : list Column) (current : SortState) (rows : list Item).

(** Consistency on a given list of rows can be checked row by row. *)
Lemma consistent_on_check rows (compare : Comparator Item) :
  Forall (λ a, Forall (λ b,
    Z.sgn (compare a b) = - Z.sgn (compare b a) ∧
    Forall (λ c, compare a b ≤ 0 → compare b c ≤ 0 → compare a c ≤ 0) rows)
    rows) rows →
  consistent_on rows compare.
Proof.
  intros Hall. split.
  - intros a b Ha Hb.
    rewrite Forall_forall in Hall. specialize (Hall a Ha).
    rewrite Forall_forall in Hall. by destruct (Hall b Hb).
  - intros a b c Ha Hb Hc.
    rewrite Forall_forall in Hall. specialize (Hall a Ha).
    rewrite Forall_forall in Hall. destruct (Hall b Hb) as [_ Htrans].
    rewrite Forall_forall in Htrans. by apply Htrans.
Qed.

Lemma directed_consistent rows (o : ColumnSortOrder) (key : Comparator Item) :
  consistent_on rows key → consistent_on rows (directed o key).
Proof.
  intros [Hsign Htrans]. destruct o; [done|]. unfold directed. split.
  - intros a b Ha Hb. specialize (Hsign a b Ha Hb). lia.
  - intros a b c Ha Hb Hc Hab Hbc.
    pose proof (Hsign a b Ha Hb). pose proof (Hsign b c Hb Hc).
    pose proof (Hsign a c Ha Hc).
    assert (key c a ≤ 0); [|lia].
    apply (Htrans c b a); auto; lia.
Qed.

(** A key followed by a consistent comparison for the ties. *)
Lemma lexicographic_consistent rows (key rest : Comparator Item) :
  consistent_on rows key → consistent_on rows rest →
  consistent_on rows
    (λ a b, if key a b =? 0 then rest a b else key a b).
Proof.
  intros [Hsign Htrans] [Hsign' Htrans']. split.
  - intros a b Ha Hb.
    specialize (Hsign a b Ha Hb). specialize (Hsign' a b Ha Hb).
    destruct (Z.eqb_spec (key a b) 0), (Z.eqb_spec (key b a) 0); lia.
  - intros a b c Ha Hb Hc.
    pose proof (Hsign a b Ha Hb). pose proof (Hsign b c Hb Hc).
    pose proof (Hsign a c Ha Hc).
    pose proof (Htrans a b c Ha Hb Hc).
    pose proof (Htrans b c a Hb Hc Ha).
    pose proof (Htrans c a b Hc Ha Hb).
    pose proof (Htrans' a b c Ha Hb Hc).
    destruct (Z.eqb_spec (key a b) 0), (Z.eqb_spec (key b c) 0),
      (Z.eqb_spec (key a c) 0); lia.
Qed.

(** The chain of comparisons is consistent on the rows when the
    comparator of every column it uses is. *)
Lemma compareItems_consistent cols current rows :
  Forall (λ s, ∀ key, entryComparator cols s = Some key →
                      consistent_on rows key) current →
  consistent_on rows (compareItems cols current).
Proof.
  induction 1 as [|s rest Hs _ IH].
  - split; simpl; intros; lia.
  - destruct (entryComparator cols s) as [key|] eqn:Hkey.
    + pose proof (lexicographic_consistent rows _ _
        (directed_consistent rows (order s) key (Hs key eq_refl)) IH)
        as [Hsign Htrans].
      assert (∀ a b, compareItems cols (s :: rest) a b
                = if directed (order s) key a b =? 0
                  then compareItems cols rest a b
                  else directed (order s) key a b) as Heq.
      { intros a b. rewrite compareItems_cons, Hkey. unfold directed.
        destruct (order s); [done|].
        destruct (Z.eqb_spec (key a b) 0), (Z.eqb_spec (- key a b) 0);
          try done; lia. }
      split.
      * intros a b Ha Hb. rewrite !Heq. by apply Hsign.
      * intros a b c Ha Hb Hc. rewrite !Heq. by apply Htrans.
    + destruct IH as [Hsign Htrans]. split.
      * intros a b Ha Hb. rewrite !compareItems_skip by done. by apply Hsign.
      * intros a b c Ha Hb Hc. rewrite !compareItems_skip by done.
        by apply Htrans.
Qed.
End Consistency.

(** The difference of two ranks is a consistent comparator on all rows. *)
Lemma compareRank_consistent (rows : list Sample.Item) :
  consistent_on rows Sample.compareRank.
Proof. unfold Sample.compareRank. split; intros; lia. Qed.

(** ** The sample table, sorted *)

(** By rank, descending, then by name: the comparison is consistent on the
    sample rows and the result is in lexicographic order. *)
Lemma getSortedData_two_keys_sample :
  let state :=
    {| sort := [{| column := "rank"; order := desc |};
                {| column := "name"; order := asc |}] |} in
  let current := getSortState Sample.uncontrolled state in
  sort_orders (@insertion_sort Sample.Item) ∧
  isControlledState Sample.uncontrolled = false ∧
  current ≠ [] ∧
  Sample.heap !! data Sample.uncontrolled = Some Sample.rows ∧
  consistent_on Sample.rows (compareItems (columns Sample.uncontrolled) current) ∧
  ∃ copy h' out,
    getSortedData insertion_sort Sample.uncontrolled state Sample.heap
      = Some (copy, h') ∧
    h' !! copy = Some out ∧
    StronglySorted
      (lex_ordered (sortKeys (columns Sample.uncontrolled) current)) out.
Proof.
  intros state current.
  assert (consistent_on Sample.rows
            (compareItems (columns Sample.uncontrolled) current)) as Hcons.
  { apply consistent_on_check. apply (bool_decide_unpack _).
    vm_compute. reflexivity. }
  assert (current ≠ []) as Hnonempty by discriminate.
  split_and!; [apply insertion_sort_orders|reflexivity|exact Hnonempty
              |reflexivity|exact Hcons|].
  destruct (getSortedData_orders_lexicographically insertion_sort
              Sample.uncontrolled state Sample.heap Sample.rows
              insertion_sort_orders eq_refl Hnonempty eq_refl Hcons)
    as (copy & h' & out & Hget & Hout & Hlex & _).
  exists copy, h', out. split_and!; assumption.
Defined.

(** By rank alone, with the insertion sort, which is stable: the copy is
    a new array, [data] is as before, and the rows that tie keep their
    order. *)
Lemma getSortedData_copy_sample :
  let state := {| sort := [{| column := "rank"; order := asc |}] |} in
  let compare :=
    compareItems (columns Sample.uncontrolled)
      (getSortState Sample.uncontrolled state) in
  isControlledState Sample.uncontrolled = false ∧
  getSortState Sample.uncontrolled state ≠ [] ∧
  Sample.heap !! data Sample.uncontrolled = Some Sample.rows ∧
  ∃ copy h',
    getSortedData insertion_sort Sample.uncontrolled state Sample.heap
      = Some (copy, h') ∧
    Sample.heap !! copy = None ∧
    copy ≠ data Sample.uncontrolled ∧
    h' !! data Sample.uncontrolled = Some Sample.rows ∧
    h' !! copy = Some (insertion_sort compare Sample.rows) ∧
    ∀ e, e ∈ Sample.rows →
      ties compare e (insertion_sort compare Sample.rows)
      = ties compare e Sample.rows.
Proof.
  intros state compare.
  assert (getSortState Sample.uncontrolled state ≠ []) as Hnonempty
    by discriminate.
  assert (consistent_on Sample.rows compare) as Hcons.
  { apply compareItems_consistent. apply Forall_singleton.
    intros key [= <-]. apply compareRank_consistent. }
  split_and!; [reflexivity|exact Hnonempty|reflexivity|].
  destruct (getSortedData_sorts_a_copy insertion_sort Sample.uncontrolled state
              Sample.heap Sample.rows eq_refl Hnonempty eq_refl)
    as (copy & h' & Hget & Hfresh & Hne & Hdata & _ & Hcopy & Hties).
  exists copy, h'. split_and!; try assumption.
  intros e He. exact (proj1 (Hties insertion_sort_stable Hcons e He)).
Defined.

(** Rows named 1, [NaN], 1 under the generic comparison of the name
    column: each row is put before its predecessor, so a stable sort that
    reverses descending runs returns them back to front, and the two rows
    named 1, which tie on every key, change places. *)
Lemma getSortedData_ties_reversed :
  let state := {| sort := [{| column := "name"; order := asc |}] |} in
  let h : Heap.t Sample.Item := [Sample.namelessRows] in
  let compare :=
    compareItems (columns Sample.uncontrolled)
      (getSortState Sample.uncontrolled state) in
  let first := Sample.row (Primitive.Num 1) (Primitive.Num 10) in
  let last := Sample.row (Primitive.Num 1) (Primitive.Num 30) in
  sort_stable (@run_sort Sample.Item) ∧
  sort_permutes (@run_sort Sample.Item) ∧
  sort_orders (@run_sort Sample.Item) ∧
  isControlledState Sample.uncontrolled = false ∧
  getSortState Sample.uncontrolled state ≠ [] ∧
  h !! data Sample.uncontrolled = Some Sample.namelessRows ∧
  compare first last = 0 ∧
  ties compare first Sample.namelessRows = [first; last] ∧
  ∃ copy h' out,
    getSortedData run_sort Sample.uncontrolled state h = Some (copy, h') ∧
    h' !! copy = Some out ∧
    ties compare first out = [last; first] ∧
    ties compare first out ≠ ties compare first Sample.namelessRows.
Proof.
  intros state h compare first last.
  split_and!; [apply run_sort_stable|apply run_sort_permutes
              |apply run_sort_orders|reflexivity|discriminate|reflexivity
              |reflexivity|vm_compute; reflexivity|].
  exists 1%nat, (h ++ [reverse Sample.namelessRows]),
    (reverse Sample.namelessRows).
  split_and!; [vm_compute; reflexivity|reflexivity|vm_compute; reflexivity|].
  vm_compute. discriminate.
Qed.

(** The generic comparison is not consistent on rows one of which holds
    [NaN]. *)
Example defaultCompareFunction_inconsistent :
  ¬ consistent_on
      [Sample.row (Primitive.Num 1) Primitive.NaN;
       Sample.row (Primitive.Num 2) (Primitive.Num 7)]
      (λ itemA itemB, defaultCompareFunction itemA itemB "rank").
Proof.
  intros [Hsign _].
  pose proof (Hsign (Sample.row (Primitive.Num 1) Primitive.NaN)
                    (Sample.row (Primitive.Num 2) (Primitive.Num 7))
                    ltac:(set_solver) ltac:(set_solver)) as Hxy.
  vm_compute in Hxy. discriminate.
Qed.

(** The rows it produces there: the two rows of rank 20 keep their
    order. *)
Example getSortedData_by_rank :
  getSortedData insertion_sort Sample.uncontrolled
    {| sort := [{| column := "rank"; order := asc |}] |} Sample.heap
  = Some (1%nat,
          [Sample.rows;
           [Sample.row (Primitive.Num 3) (Primitive.Num 10);
            Sample.row (Primitive.Num 2) (Primitive.Num 20);
            Sample.row (Primitive.Num 1) (Primitive.Num 20)]]).
Proof. vm_compute. reflexivity. Qed.

(** A compare function that always answers 1 puts every row after every
    other one: whatever rearrangement of the rows the sort returns, its
    first two rows are not in non-decreasing order under that function. *)
Lemma getSortedData_inconsistent_comparator :
  let state := {| sort := [{| column := "odd"; order := asc |}] |} in
  isControlledState Sample.uncontrolled = false ∧
  getSortState Sample.uncontrolled state ≠ [] ∧
  entryComparator (columns Sample.uncontrolled)
    {| column := "odd"; order := asc |} = Some Sample.compareAlwaysAfter ∧
  ¬ ∃ native copy h' out,
      sort_permutes native ∧
      getSortedData native Sample.uncontrolled state Sample.heap
        = Some (copy, h') ∧
      h' !! copy = Some out ∧
      nondecreasing Sample.compareAlwaysAfter out.
Proof.
  intros state. split_and!; [reflexivity|discriminate|reflexivity|].
  intros (native & copy & h' & out & Hperm & Hget & Hout & Hsorted).
  rewrite (getSortedData_sorts native Sample.uncontrolled state Sample.heap
             Sample.rows) in Hget by (reflexivity || discriminate).
  injection Hget as <- <-. injection Hout as <-.
  specialize (Hperm (compareItems (columns Sample.uncontrolled)
                       (getSortState Sample.uncontrolled state)) Sample.rows).
  apply Permutation_length in Hperm.
  destruct (native _ _) as [|a [|b out]]; try discriminate.
  unfold nondecreasing in Hsorted.
  apply Sorted_inv in Hsorted as [_ Hab]. apply HdRel_inv in Hab.
  unfold Sample.compareAlwaysAfter in Hab. lia.
Qed.


(** * Further properties of the controller *)

(** ** The header of a sortable column *)

Section Header.
Context {V : Type} `{!JSValue V} {Owner : Type}.
Local Abbreviation Column := (TableColumnConfig (TableDataItem V)).
Local Abbreviation WithProps := (Props (TableDataItem V) Owner).
Implicit Types (props : WithProps) (state : WithTableSortingState).
Implicit Types (col other : Column) (current : SortState).

(** The three parts of the header in the order in which they are shown. *)
Definition headerLayout (col : Column) (shown : ColumnSortOrder)
    : list (HeaderPart (TableDataItem V)) :=
  match column_align col with
  | Some AlignRight => [SortIndicator shown; SortSpacer; SortContent col]
  | _ => [SortContent col; SortSpacer; SortIndicator shown]
  end.

Lemma activeOrder_Some (name : string) current :
  is_Some (activeOrder name current) ↔
  ∃ s, s ∈ current ∧ column s = name.
Proof.
  unfold activeOrder. split.
  - intros [o Ho]. destruct (JS.find _ _) as [s|] eqn:Hfind; [|done].
    apply find_Some in Hfind as (pre & post & -> & Hs%String.eqb_eq & _).
    exists s. split; [set_solver|done].
  - intros (s & Hin & Hs).
    destruct (JS.find _ _) as [s'|] eqn:Hfind; [by eexists|].
    apply find_None in Hfind. rewrite Forall_forall in Hfind.
    specialize (Hfind s Hin). simpl in Hfind.
    by rewrite Hs, String.eqb_refl in Hfind.
Qed.

Lemma activeOrder_first (name : string) (pre post : SortState)
    (s : ColumnSortState) :
  column s = name → Forall (λ e, column e ≠ name) pre →
  activeOrder name (pre ++ s :: post) = Some (order s).
Proof.
  intros Hs Hpre. unfold activeOrder. rewrite find_app_found; [done| |].
  - eapply Forall_impl; [exact Hpre|]. simpl. intros e He.
    by apply String.eqb_neq.
  - by apply String.eqb_eq.
Qed.

Lemma renderSortableName_view props state col :
  renderSortableName props state col
  = {| header_content :=
         headerLayout col
           (default (getColumnDefaultSortOrder col)
              (activeOrder (column_id col) (getSortState props state)));
       header_active :=
         bool_decide
           (is_Some (activeOrder (column_id col) (getSortState props state)));
       header_onClick := col |}.
Proof.
  unfold renderSortableName, headerLayout, activeOrder.
  destruct (getSortState props state) as [|s rest]; simpl.
  - by destruct (column_align col) as [[]|].
  - by destruct (column_align col) as [[]|].
Qed.

(** X1: the header that a sortable column gets is marked active exactly
    when the current sort state holds an entry for the column; its
    indicator shows the order of the first such entry, and the default
    order of the column when there is none; the parts are content, spacer,
    indicator, in the opposite order for a right-aligned column; and the
    click handler is bound to the column itself. *)
Theorem header_reflects_sort_state props state col :
  let view := renderSortableName props state col in
  let current := getSortState props state in
  let d := getColumnDefaultSortOrder col in
  (header_active view = true ↔ ∃ s, s ∈ current ∧ column s = column_id col) ∧
  (∀ pre s post,
     current = pre ++ s :: post → column s = column_id col →
     Forall (λ e, column e ≠ column_id col) pre →
     header_content view = headerLayout col (order s)) ∧
  (header_active view = false → header_content view = headerLayout col d) ∧
  (column_align col = Some AlignRight →
     ∃ shown, header_content view
              = [SortIndicator shown; SortSpacer; SortContent col]) ∧
  (column_align col ≠ Some AlignRight →
     ∃ shown, header_content view
              = [SortContent col; SortSpacer; SortIndicator shown]) ∧
  header_onClick view = col.
Proof.
  intros view current d. subst view. rewrite renderSortableName_view. simpl.
  fold current d. split_and!.
  - rewrite bool_decide_eq_true. apply activeOrder_Some.
  - intros pre s post Hcurrent Hs Hpre.
    by rewrite Hcurrent, activeOrder_first.
  - rewrite bool_decide_eq_false. intros Hnone.
    destruct (activeOrder _ _); [|done]. destruct Hnone. by eexists.
  - intros Halign. eexists. unfold headerLayout. by rewrite Halign.
  - intros Halign. eexists. unfold headerLayout.
    by destruct (column_align col) as [[]|].
  - done.
Qed.

(** X2: in uncontrolled mode, after a click without the modifier on the
    header of a column, that header is active unless the cycle of the
    column has reached "none", and shows the order just committed (the
    default order after "none"); the header of every column with another
    identifier is inactive and shows that column's default order.  The
    first click on an inactive header commits the very order that the
    header was showing. *)
Theorem header_after_plain_click props state col event (owner : Owner) :
  isControlledState props = false →
  shiftKey event = false →
  let d := getColumnDefaultSortOrder col in
  let next := cycleNext d (activeOrder (column_id col) (sort state)) in
  let state' := (click props col event (state, owner)).1 in
  renderSortableName props state' col
    = {| header_content := headerLayout col (default d next);
         header_active := bool_decide (is_Some next);
         header_onClick := col |} ∧
  (∀ other,
     column_id other ≠ column_id col →
     renderSortableName props state' other
     = {| header_content :=
            headerLayout other (getColumnDefaultSortOrder other);
          header_active := false;
          header_onClick := other |}) ∧
  (header_active (renderSortableName props state col) = false →
     sort state' = [{| column := column_id col; order := d |}] ∧
     header_content (renderSortableName props state' col)
     = header_content (renderSortableName props state col)).
Proof.
  intros Hmode Hplain d next state'.
  assert (sort state' = nextEntry (column_id col) next) as Hstate'.
  { subst state'. rewrite click_uncontrolled by done. simpl.
    rewrite handleColumnSortClick_plain by done.
    rewrite committed_handleSortStateChange.
    unfold plainClick, getSortState. by rewrite Hmode. }
  assert (∀ st, getSortState props st = sort st) as Hget.
  { intros st. unfold getSortState. by rewrite Hmode. }
  split_and!.
  - rewrite renderSortableName_view, Hget, Hstate'. fold d.
    destruct next as [o|]; simpl; [|done].
    by rewrite activeOrder_singleton.
  - intros other Hother.
    rewrite renderSortableName_view, Hget, Hstate'.
    replace (activeOrder (column_id other) (nextEntry (column_id col) next))
      with (@None ColumnSortOrder); [done|].
    destruct next as [o|]; [|done]. unfold activeOrder. simpl.
    destruct (String.eqb_spec (column_id col) (column_id other)); [|done].
    by destruct Hother.
  - rewrite !renderSortableName_view, !Hget, Hstate'. simpl.
    rewrite bool_decide_eq_false. intros Hnone.
    assert (activeOrder (column_id col) (sort state) = None) as Hactive.
    { destruct (activeOrder _ _); [|done]. destruct Hnone. by eexists. }
    subst next. rewrite Hactive. fold d.
    destruct (cycleNext_opposite d) as (-> & _ & _). simpl.
    by rewrite activeOrder_singleton.
Qed.
End Header.

(** ** Clicks, in any state and in controlled mode *)

Section MoreClicks.
Context {V : Type} `{!JSValue V} {Owner : Type}.
Local Abbreviation Item := (TableDataItem V).
Local Abbreviation Column := (TableColumnConfig (TableDataItem V)).
Local Abbreviation WithProps := (Props (TableDataItem V) Owner).
Implicit Types (props : WithProps) (state : WithTableSortingState).
Implicit Types (col Y : Column) (current : SortState).

Lemma isControlledState_both props (s : SortState)
    (callback : SortState → Owner → Owner) :
  sortState props = Some s → onSortStateChange props = Some callback →
  isControlledState props = true.
Proof. intros Hs Hc. unfold isControlledState. by rewrite Hs, Hc. Qed.

Lemma handleSortStateChange_controlled props (new : SortState) :
  isControlledState props = true →
  handleSortStateChange props new = CallOnSortStateChange new.
Proof. intros Hmode. unfold handleSortStateChange. by rewrite Hmode. Qed.

Lemma handleColumnSortClick_controlled props state col event :
  isControlledState props = true →
  handleColumnSortClick props state col event
  = CallOnSortStateChange
      (committed (handleColumnSortClick props state col event)).
Proof.
  intros Hmode. destruct (shiftKey event) eqn:Hshift.
  - rewrite handleColumnSortClick_shift by done.
    by rewrite committed_handleSortStateChange, handleSortStateChange_controlled.
  - rewrite handleColumnSortClick_plain by done.
    by rewrite committed_handleSortStateChange, handleSortStateChange_controlled.
Qed.

(** X3: in controlled mode the internal state is neither read nor
    written: the current sort state is the [sortState] prop; what a click
    commits, what a header shows and what [getSortedData] returns are the
    same for every internal state; and a click leaves the internal state
    as it is and calls [onSortStateChange] once, with the new sort
    state. *)
Theorem controlled_mode_ignores_internal_state props (s : SortState)
    (callback : SortState → Owner → Owner) :
  sortState props = Some s →
  onSortStateChange props = Some callback →
  ∀ (native : Comparator Item → list Item → list Item)
    state state' col event (owner : Owner) (h : Heap.t Item),
    getSortState props state = s ∧
    handleColumnSortClick props state col event
      = handleColumnSortClick props state' col event ∧
    renderSortableName props state col = renderSortableName props state' col ∧
    getSortedData native props state h = getSortedData native props state' h ∧
    (∃ new,
       handleColumnSortClick props state col event = CallOnSortStateChange new ∧
       click props col event (state, owner) = (state, callback new owner)).
Proof.
  intros Hs Hc native state state' col event owner h.
  pose proof (isControlledState_both props s callback Hs Hc) as Hmode.
  assert (∀ st, getSortState props st = s) as Hget.
  { intros st. unfold getSortState. by rewrite Hmode, Hs. }
  split_and!.
  - apply Hget.
  - unfold handleColumnSortClick. by rewrite !Hget.
  - unfold renderSortableName. by rewrite !Hget.
  - unfold getSortedData. by rewrite Hmode.
  - eexists. split; [by apply handleColumnSortClick_controlled|].
    unfold click. simpl.
    rewrite (handleColumnSortClick_controlled props state col event Hmode).
    simpl. by rewrite Hc.
Qed.

(** X4: the click handler reads nothing of the column but its identifier
    and its default order: two columns that agree on both commit the same
    on every click, and so do a column and its decorated copy. *)
Theorem click_reads_id_and_default_order props state col col' event :
  (column_id col = column_id col' →
   getColumnDefaultSortOrder col = getColumnDefaultSortOrder col' →
   handleColumnSortClick props state col event
   = handleColumnSortClick props state col' event) ∧
  handleColumnSortClick props state (enhanceColumn col) event
  = handleColumnSortClick props state col event.
Proof.
  assert (∀ c c' : Column,
            column_id c = column_id c' →
            getColumnDefaultSortOrder c = getColumnDefaultSortOrder c' →
            handleColumnSortClick props state c event
            = handleColumnSortClick props state c' event) as Hagree.
  { intros c c' Hid Hd. unfold handleColumnSortClick.
    rewrite !getNextSortForColumn_cycle. by rewrite Hid, Hd. }
  split; [apply Hagree|]. apply Hagree.
  - unfold enhanceColumn. destruct (column_meta col) as [m|]; [|done].
    by destruct (truthy_sort (meta_sort m)).
  - unfold enhanceColumn, getColumnDefaultSortOrder.
    destruct (column_meta col) as [m|] eqn:Hmeta; [|by rewrite Hmeta].
    destruct (truthy_sort (meta_sort m)); [done|by rewrite Hmeta].
Qed.

(** X5: a click with the modifier, in any prior sort state, also one that
    names a column more than once: the entries of the other columns are
    kept in their order; if the column has no entry its default order is
    appended; if it has one, the first entry for it is cut out, and only
    that one, and the next entry of the cycle, if any, is appended.  The
    length changes by one at most. *)
Theorem shift_click_in_any_state props state Y event :
  shiftKey event = true →
  let name := column_id Y in
  let d := getColumnDefaultSortOrder Y in
  let current := getSortState props state in
  let new := committed (handleColumnSortClick props state Y event) in
  withoutColumn name new = withoutColumn name current ∧
  (activeOrder name current = None →
     new = current ++ [{| column := name; order := d |}]) ∧
  (∀ pre found post,
     current = pre ++ found :: post →
     column found = name → Forall (λ e, column e ≠ name) pre →
     new = pre ++ post ++ nextEntry name (cycleNext d (Some (order found)))) ∧
  (length new ≤ length current + 1)%nat ∧
  (length current ≤ length new + 1)%nat.
Proof.
  intros Hshift name d current new.
  assert (∀ next, withoutColumn name (nextEntry name next) = []) as Hnext.
  { intros [o|]; [|done]. unfold withoutColumn. simpl.
    by rewrite filter_cons_False by (by intros ?). }
  assert (∀ pre found post,
            current = pre ++ found :: post →
            column found = name → Forall (λ e, column e ≠ name) pre →
            new = pre ++ post
                    ++ nextEntry name (cycleNext d (Some (order found)))) as Hcut.
  { intros pre found post Hcurrent Hfound Hpre. subst new.
    rewrite handleColumnSortClick_shift by done.
    rewrite committed_handleSortStateChange. fold current name d.
    assert (Forall (λ e, String.eqb (column e) name = false) pre) as Hpre'.
    { eapply Forall_impl; [exact Hpre|]. simpl. intros e He.
      by apply String.eqb_neq. }
    assert (String.eqb (column found) name = true) as Hfound'
      by (by apply String.eqb_eq).
    rewrite Hcurrent, find_app_found by done. simpl.
    rewrite findIndex_found, slice_before, slice_after by done.
    rewrite activeOrder_first by done. by rewrite <- app_assoc. }
  assert (activeOrder name current = None →
          new = current ++ nextEntry name (cycleNext d None)) as Hfresh.
  { intros Hnone. subst new.
    rewrite handleColumnSortClick_shift by done.
    rewrite committed_handleSortStateChange. fold current name d.
    rewrite Hnone. unfold activeOrder in Hnone.
    by destruct (JS.find _ current). }
  destruct (JS.find (λ s, String.eqb (column s) name) current) as [found|]
    eqn:Hfind.
  - apply find_Some in Hfind as (pre & post & Hcurrent & Hfound & Hpre).
    apply String.eqb_eq in Hfound.
    assert (Forall (λ e, column e ≠ name) pre) as Hpre'.
    { eapply Forall_impl; [exact Hpre|]. simpl. intros e He.
      by apply String.eqb_neq. }
    pose proof (Hcut pre found post Hcurrent Hfound Hpre') as Hnew.
    split_and!.
    + rewrite Hnew, Hcurrent. unfold withoutColumn.
      rewrite !filter_app, filter_cons_False by (by intros ?).
      fold (withoutColumn name (nextEntry name
              (cycleNext d (Some (order found))))).
      by rewrite Hnext, app_nil_r.
    + intros Hnone. rewrite Hcurrent, activeOrder_first in Hnone; done.
    + done.
    + rewrite Hnew, Hcurrent, !length_app. simpl.
      pose proof (nextEntry_length name (cycleNext d (Some (order found)))).
      lia.
    + rewrite Hnew, Hcurrent, !length_app. simpl. lia.
  - assert (activeOrder name current = None) as Hnone
      by (unfold activeOrder; by rewrite Hfind).
    pose proof (Hfresh Hnone) as Hnew.
    destruct (cycleNext_opposite d) as (Hd & _ & _). rewrite Hd in Hnew.
    split_and!.
    + rewrite Hnew. unfold withoutColumn at 1. rewrite filter_app.
      fold (withoutColumn name current).
      fold (withoutColumn name (nextEntry name (Some d))).
      by rewrite Hnext, app_nil_r.
    + done.
    + done.
    + rewrite Hnew, length_app. simpl. lia.
    + rewrite Hnew, length_app. simpl. lia.
Qed.
End MoreClicks.

(** ** More on the comparison chain *)

(** The sort state with every direction turned round. *)
Definition reversed (current : SortState) : SortState :=
  (λ s, {| column := column s; order := opposite (order s) |}) <$> current.

Section MoreComparison.
Context {V : Type} `{!JSValue V}.
Local Abbreviation Item := (TableDataItem V).
Local Abbreviation Column := (TableColumnConfig (TableDataItem V)).
Implicit Types (cols : list Column) (current rest : SortState).
Implicit Types (state : ColumnSortState) (itemA itemB : Item).

(** The comparator of an entry depends on its column only. *)
Lemma entryComparator_column cols state state' :
  column state = column state' →
  entryComparator cols state = entryComparator cols state'.
Proof. intros Hcol. unfold entryComparator, columnOf. by rewrite Hcol. Qed.

(** X6: turning round the direction of every entry of the sort state
    negates the comparison of any two rows: sorting descending on all keys
    is the exact opposite of sorting ascending on them. *)
Theorem compareItems_reversed cols current itemA itemB :
  compareItems cols (reversed current) itemA itemB
  = - compareItems cols current itemA itemB.
Proof.
  induction current as [|state rest IH]; [done|].
  unfold reversed in *. rewrite fmap_cons, !compareItems_cons.
  rewrite (entryComparator_column cols _ state) by done.
  destruct (entryComparator cols state) as [compare|]; [|done].
  destruct (Z.eqb_spec (compare itemA itemB) 0); [done|].
  unfold directed. simpl. destruct (order state); simpl; lia.
Qed.

(** An entry that is skipped or ties can be left out wherever it
    stands. *)
Lemma compareItems_inert cols (before : SortState) state rest itemA itemB :
  (∀ compare, entryComparator cols state = Some compare →
              compare itemA itemB = 0) →
  compareItems cols (before ++ state :: rest) itemA itemB
  = compareItems cols (before ++ rest) itemA itemB.
Proof.
  intros Hinert. induction before as [|s before IH]; simpl app.
  - rewrite compareItems_cons.
    destruct (entryComparator cols state) as [compare|]; [|done].
    by rewrite (Hinert compare eq_refl).
  - by rewrite !compareItems_cons, IH.
Qed.

(** X7: a second entry for a column that the sort state names already
    never decides a comparison, whatever its direction: the comparison is
    the one of the sort state without it. *)
Theorem compareItems_duplicate_entry cols
    (before between rest : SortState) state state' itemA itemB :
  column state' = column state →
  compareItems cols (before ++ state :: between ++ state' :: rest) itemA itemB
  = compareItems cols (before ++ state :: between ++ rest) itemA itemB.
Proof.
  intros Hcol. induction before as [|s before IH]; simpl app.
  - rewrite !compareItems_cons.
    destruct (entryComparator cols state) as [compare|] eqn:Hstate.
    + destruct (Z.eqb_spec (compare itemA itemB) 0) as [Htie|]; [|done].
      apply compareItems_inert. intros compare' Hcompare'.
      rewrite (entryComparator_column cols state' state Hcol), Hstate
        in Hcompare'.
      by injection Hcompare' as <-.
    + apply compareItems_inert. intros compare' Hcompare'.
      by rewrite (entryComparator_column cols state' state Hcol), Hstate
        in Hcompare'.
  - by rewrite !compareItems_cons, IH.
Qed.

Lemma enhanceColumn_id (col : Column) :
  column_id (enhanceColumn col) = column_id col.
Proof.
  unfold enhanceColumn. destruct (column_meta col) as [m|]; [|done].
  by destruct (truthy_sort (meta_sort m)).
Qed.

Lemma enhanceColumn_sort (col : Column) :
  sort_of (Some (enhanceColumn col)) = sort_of (Some col).
Proof.
  unfold enhanceColumn, sort_of.
  destruct (column_meta col) as [m|] eqn:Hmeta; [|by rewrite Hmeta].
  destruct (truthy_sort (meta_sort m)); [done|by rewrite Hmeta].
Qed.

Lemma columnOf_decorateColumns cols state :
  columnOf (decorateColumns cols) state = enhanceColumn <$> columnOf cols state.
Proof.
  unfold columnOf, decorateColumns.
  induction cols as [|col cols IH]; [done|]. simpl.
  rewrite enhanceColumn_id. by destruct (String.eqb _ _).
Qed.

Lemma entryComparator_decorateColumns cols state :
  entryComparator (decorateColumns cols) state = entryComparator cols state.
Proof.
  unfold entryComparator. rewrite columnOf_decorateColumns.
  destruct (columnOf cols state) as [col|]; [|done].
  change (enhanceColumn <$> Some col) with (Some (enhanceColumn col)).
  by rewrite enhanceColumn_sort.
Qed.

Lemma compareItems_decorateColumns cols current itemA itemB :
  compareItems (decorateColumns cols) current itemA itemB
  = compareItems cols current itemA itemB.
Proof.
  induction current as [|state rest IH]; [done|].
  by rewrite !compareItems_cons, entryComparator_decorateColumns, IH.
Qed.

(** X8: while the cache is current (no columns array changed in place
    since it was decorated), the columns that [enhanceColumns] returns
    keep what sorting reads of the given ones: the identifiers, in their
    order, and the alignment of each column are kept, the entries find the
    same comparators, and any two rows compare under the decorated columns
    as under the given ones. *)
Theorem enhanceColumns_keeps_comparison (cache : gmap nat nat)
    (columnsRef : Heap.ref) (ch : Heap.t Column) cols :
  cache_current cache ch →
  ch !! columnsRef = Some cols →
  ∃ result cache' ch' shown,
    enhanceColumns cache columnsRef ch = Some (result, cache', ch') ∧
    ch' !! result = Some shown ∧
    column_id <$> shown = column_id <$> cols ∧
    column_align <$> shown = column_align <$> cols ∧
    (∀ state, entryComparator shown state = entryComparator cols state) ∧
    (∀ current itemA itemB,
       compareItems shown current itemA itemB
       = compareItems cols current itemA itemB).
Proof.
  intros Hcurrent Hcols.
  assert (∃ result cache' ch',
            enhanceColumns cache columnsRef ch = Some (result, cache', ch') ∧
            ch' !! result = Some (decorateColumns cols))
    as (result & cache' & ch' & Hcall & Hshown).
  { unfold enhanceColumns.
    destruct (cache !! columnsRef) as [cached|] eqn:Hcache.
    - exists cached, cache, ch. split; [done|].
      destruct (Hcurrent columnsRef cached Hcache) as (cols' & Hcols' & Hcached).
      rewrite Hcols in Hcols'. by injection Hcols' as <-.
    - rewrite Hcols. simpl. eexists _, _, _. split; [done|].
      by rewrite lookup_app_r, Nat.sub_diag. }
  exists result, cache', ch', (decorateColumns cols). split_and!.
  - done.
  - done.
  - unfold decorateColumns. rewrite <- list_fmap_compose.
    apply list_fmap_ext. intros _ col _. apply enhanceColumn_id.
  - unfold decorateColumns. rewrite <- list_fmap_compose.
    apply list_fmap_ext. intros _ col _. simpl. unfold enhanceColumn.
    destruct (column_meta col) as [m|]; [|done].
    by destruct (truthy_sort (meta_sort m)).
  - apply entryComparator_decorateColumns.
  - apply compareItems_decorateColumns.
Qed.
End MoreComparison.

(** ** More on the sorted data *)

Section MoreSortedData.
Context {V : Type} `{!JSValue V} {Owner : Type}.
Local Abbreviation Item := (TableDataItem V).
Local Abbreviation Column := (TableColumnConfig (TableDataItem V)).
Local Abbreviation WithProps := (Props (TableDataItem V) Owner).
Implicit Types (props : WithProps) (state : WithTableSortingState).
Implicit Types (h : Heap.t Item) (rows out : list Item).
Implicit Types (native : Comparator Item → list Item → list Item).

Lemma getSortedData_unsorted native props state h :
  isControlledState props || (length (getSortState props state) =? 0)%nat = true →
  getSortedData native props state h = Some (data props, h).
Proof. intros Hcond. unfold getSortedData. by rewrite Hcond. Qed.

(** X9: whenever [data] names an array, [getSortedData] hands the table
    an array with the same rows, each as often as in [data]: with a sort
    that rearranges, no row is lost, added or repeated, in any mode. *)
Theorem getSortedData_keeps_rows native props state h rows :
  sort_permutes native →
  h !! data props = Some rows →
  ∃ r h' out,
    getSortedData native props state h = Some (r, h') ∧
    h' !! r = Some out ∧
    out ≡ₚ rows ∧
    length out = length rows.
Proof.
  intros Hperm Hdata.
  destruct (isControlledState props
            || (length (getSortState props state) =? 0)%nat) eqn:Hcond.
  - exists (data props), h, rows.
    by rewrite getSortedData_unsorted.
  - apply orb_false_iff in Hcond as [Hmode Hlen].
    assert (getSortState props state ≠ []) as Hnonempty
      by (intros Hnil; by rewrite Hnil in Hlen).
    set (compare := compareItems (columns props) (getSortState props state)).
    exists (length h), (h ++ [native compare rows]), (native compare rows).
    split_and!; [by apply getSortedData_sorts| |apply Hperm|by rewrite Hperm].
    by rewrite lookup_app_r, Nat.sub_diag.
Qed.

(** X10: when the sort state is not empty but none of its entries finds
    a comparator (unknown columns, or columns without [meta.sort]), the
    table in uncontrolled mode still gets a new array, not [data] itself,
    and with a stable sort the rows in it are in the order of [data]. *)
Theorem getSortedData_without_effective_key native props state h rows :
  sort_stable native →
  sort_permutes native →
  isControlledState props = false →
  getSortState props state ≠ [] →
  Forall (λ s, entryComparator (columns props) s = None)
         (getSortState props state) →
  h !! data props = Some rows →
  getSortedData native props state h = Some (length h, h ++ [rows]) ∧
  length h ≠ data props.
Proof.
  intros Hstable Hperm Hmode Hnonempty Hnone Hdata.
  set (compare := compareItems (columns props) (getSortState props state)).
  assert (∀ a b, compare a b = 0) as Hzero.
  { intros a b. apply compareItems_all_tie.
    eapply Forall_impl; [exact Hnone|]. simpl. intros s Hs key Hkey.
    by rewrite Hs in Hkey. }
  assert (consistent_on rows compare) as Hcons.
  { split; intros; rewrite ?Hzero; done. }
  assert (native compare rows = rows) as Hsame.
  { destruct rows as [|e rows'] eqn:Hrows.
    - by apply Permutation_nil_r, Hperm.
    - rewrite <- Hrows in *.
      assert (e ∈ rows) as He by (rewrite Hrows; set_solver).
      pose proof (Hstable compare rows Hcons e He) as Hties.
      unfold ties in Hties.
      rewrite !filter_all in Hties; [done| |];
        apply Forall_forall; intros; apply Hzero. }
  split.
  - rewrite (getSortedData_sorts native props state h rows) by done.
    fold compare. by rewrite Hsame.
  - pose proof (lookup_lt_Some _ _ _ Hdata). lia.
Qed.

(** X11: the sorted array is not kept from one call to the next: in
    uncontrolled mode with a non-empty sort state two calls in a row give
    two different new arrays with the same rows, and [data] is as it
    was. *)
Theorem getSortedData_twice native props state h rows :
  isControlledState props = false →
  getSortState props state ≠ [] →
  h !! data props = Some rows →
  ∃ first second h1 h2 out,
    getSortedData native props state h = Some (first, h1) ∧
    getSortedData native props state h1 = Some (second, h2) ∧
    first ≠ second ∧ first ≠ data props ∧ second ≠ data props ∧
    h2 !! first = Some out ∧ h2 !! second = Some out ∧
    h2 !! data props = Some rows.
Proof.
  intros Hmode Hnonempty Hdata.
  set (compare := compareItems (columns props) (getSortState props state)).
  pose proof (lookup_lt_Some _ _ _ Hdata) as Hlt.
  set (h1 := h ++ [native compare rows]).
  assert (h1 !! data props = Some rows) as Hdata1
    by (subst h1; by rewrite lookup_app_l).
  exists (length h), (length h1), h1, (h1 ++ [native compare rows]),
    (native compare rows).
  assert (length h1 = S (length h)) as Hlen
    by (subst h1; rewrite length_app; simpl; lia).
  split_and!.
  - by apply getSortedData_sorts.
  - by apply getSortedData_sorts.
  - lia.
  - lia.
  - lia.
  - rewrite lookup_app_l by lia. subst h1.
    by rewrite lookup_app_r, Nat.sub_diag.
  - by rewrite lookup_app_r, Nat.sub_diag.
  - rewrite lookup_app_l by lia. done.
Qed.

(** X12: at mount the internal state is [defaultSortState], or empty
    without one.  A table mounted uncontrolled and without
    [defaultSortState] gets [data] itself, shows no header as active, and
    its first click on a header, with or without the modifier, commits
    that column alone, in its default order. *)
Theorem mounted_without_default native props h col event :
  isControlledState props = false →
  (∀ s, defaultSortState props = Some s →
        getSortState props (initialState props) = s) ∧
  (defaultSortState props = None →
     getSortState props (initialState props) = [] ∧
     getSortedData native props (initialState props) h = Some (data props, h) ∧
     header_active (renderSortableName props (initialState props) col) = false ∧
     committed (handleColumnSortClick props (initialState props) col event)
     = [{| column := column_id col;
           order := getColumnDefaultSortOrder col |}]).
Proof.
  intros Hmode.
  assert (getSortState props (initialState props)
          = default [] (defaultSortState props)) as Hget.
  { unfold getSortState. by rewrite Hmode. }
  split.
  - intros s Hs. by rewrite Hget, Hs.
  - intros Hnone. rewrite Hnone in Hget. simpl in Hget. split_and!.
    + done.
    + apply getSortedData_unsorted. rewrite Hget. apply orb_true_r.
    + unfold renderSortableName. by rewrite Hget.
    + destruct (cycleNext_opposite (getColumnDefaultSortOrder col))
        as (Hd & _ & _).
      destruct (shiftKey event) eqn:Hshift.
      * rewrite handleColumnSortClick_shift by done.
        rewrite committed_handleSortStateChange, Hget. simpl.
        unfold activeOrder. simpl. by rewrite Hd.
      * rewrite handleColumnSortClick_plain by done.
        rewrite committed_handleSortStateChange, Hget.
        unfold plainClick, activeOrder. simpl. by rewrite Hd.
Qed.
End MoreSortedData.

(** ** The generic comparison on ordered values *)

Section OrderedValues.
Context {V : Type} `{!JSValue V} {Owner : Type}.
Local Abbreviation Item := (TableDataItem V).
Local Abbreviation WithProps := (Props (TableDataItem V) Owner).
Implicit Types (props : WithProps) (state : WithTableSortingState).
Implicit Types (rows out : list Item) (c : string).

(** Values that [===] and [>] order totally: of [a === b], [a > b] and
    [b > a] exactly one holds for any two of them, and "not greater" is
    transitive.  The numbers other than [NaN] are so ordered among
    themselves, and so are the strings. *)
Definition ordered_values (vs : list V) : Prop :=
  (∀ a b, a ∈ vs → b ∈ vs →
     (strict_equals a b = true ∧ greater_than a b = false
        ∧ greater_than b a = false) ∨
     (strict_equals a b = false ∧ greater_than a b = true
        ∧ greater_than b a = false) ∨
     (strict_equals a b = false ∧ greater_than a b = false
        ∧ greater_than b a = true)) ∧
  (∀ a b d : V, a ∈ vs → b ∈ vs → d ∈ vs →
     greater_than a b = false → greater_than b d = false →
     greater_than a d = false).

(** The values that the rows hold in column [c]. *)
Definition columnValues (c : string) (rows : list Item) : list V :=
  (λ item, prop item c) <$> rows.

Lemma columnValues_elem c rows (item : Item) :
  item ∈ rows → prop item c ∈ columnValues c rows.
Proof.
  intros Hin. unfold columnValues.
  by apply (list_elem_of_fmap_2 (λ r : Item, prop r c)).
Qed.

Lemma defaultCompareFunction_ordered c rows (a b : Item) :
  ordered_values (columnValues c rows) → a ∈ rows → b ∈ rows →
  (defaultCompareFunction a b c = 0 ↔
     strict_equals (prop a c) (prop b c) = true) ∧
  (defaultCompareFunction a b c = 1 ↔
     greater_than (prop a c) (prop b c) = true) ∧
  (defaultCompareFunction a b c = -1 ↔
     greater_than (prop b c) (prop a c) = true).
Proof.
  intros [Htri _] Ha%(columnValues_elem c) Hb%(columnValues_elem c).
  unfold defaultCompareFunction.
  destruct (Htri _ _ Ha Hb) as [(-> & -> & ->)|[(-> & -> & ->)|(-> & -> & ->)]];
    repeat split; intros; (done || lia).
Qed.

Lemma defaultCompareFunction_ordered_consistent c rows :
  ordered_values (columnValues c rows) →
  consistent_on rows (λ a b, defaultCompareFunction a b c).
Proof.
  intros Hord.
  assert (∀ a b, a ∈ rows → b ∈ rows →
            (defaultCompareFunction a b c ≤ 0 ↔
               greater_than (prop a c) (prop b c) = false) ∧
            Z.sgn (defaultCompareFunction a b c)
            = - Z.sgn (defaultCompareFunction b a c)) as Hsign.
  { intros a b Ha Hb. destruct Hord as [Htri _].
    pose proof (columnValues_elem c rows a Ha) as Hva.
    pose proof (columnValues_elem c rows b Hb) as Hvb.
    unfold defaultCompareFunction.
    destruct (Htri _ _ Hva Hvb) as [(Hab & Gab & Gba)|[(Hab & Gab & Gba)|(Hab & Gab & Gba)]];
      destruct (Htri _ _ Hvb Hva) as [(Hba & ? & ?)|[(Hba & ? & ?)|(Hba & ? & ?)]];
      try congruence; rewrite Hab, Gab, Hba, ?Gba; simpl;
      (split; [split; intros; (done || lia)|lia]). }
  split.
  - intros a b Ha Hb. by apply Hsign.
  - intros a b d Ha Hb Hd Hab Hbd.
    apply (Hsign a d Ha Hd). destruct Hord as [_ Hnt].
    apply (Hnt _ (prop b c)); try by apply columnValues_elem.
    + by apply (Hsign a b Ha Hb).
    + by apply (Hsign b d Hb Hd).
Qed.

(** X13: on rows whose values in the column are totally ordered by
    [===] and [>] the generic comparison returns 0, 1 or -1 according to
    which of [a === b], [a > b], [b > a] holds, and it is a consistent
    comparator on those rows. *)
Theorem defaultCompareFunction_on_ordered_values c rows :
  ordered_values (columnValues c rows) →
  (∀ a b, a ∈ rows → b ∈ rows →
     (defaultCompareFunction a b c = 0 ↔
        strict_equals (prop a c) (prop b c) = true) ∧
     (defaultCompareFunction a b c = 1 ↔
        greater_than (prop a c) (prop b c) = true) ∧
     (defaultCompareFunction a b c = -1 ↔
        greater_than (prop b c) (prop a c) = true)) ∧
  consistent_on rows (λ a b, defaultCompareFunction a b c).
Proof.
  intros Hord. split.
  - intros a b. by apply defaultCompareFunction_ordered.
  - by apply defaultCompareFunction_ordered_consistent.
Qed.

Lemma StronglySorted_weaken_in {A : Type} (R R' : A → A → Prop) (l : list A) :
  (∀ a b, a ∈ l → b ∈ l → R a b → R' a b) →
  StronglySorted R l → StronglySorted R' l.
Proof.
  intros HR Hsorted. induction Hsorted as [|x l _ IH Hx]; constructor.
  - apply IH. intros a b Ha Hb. apply HR; set_solver.
  - rewrite Forall_forall in Hx. apply Forall_forall. intros y Hy.
    apply HR; [set_solver|set_solver|by apply Hx].
Qed.

(** X14: in uncontrolled mode, when the sort state is a single entry for
    a column that asks for the generic comparison ([sort: true]) and the
    values that the rows hold in that column are totally ordered by [===]
    and [>], the rows handed to the table are the rows of [data] with no
    row before one of a smaller value for an ascending entry, and with no
    row before one of a greater value for a descending one. *)
Theorem getSortedData_orders_values
    (native : Comparator Item → list Item → list Item)
    props state (h : Heap.t Item) rows c (o : ColumnSortOrder) :
  sort_orders native →
  sort_permutes native →
  isControlledState props = false →
  getSortState props state = [{| column := c; order := o |}] →
  sort_of (columnOf (columns props) {| column := c; order := o |})
    = Some (SortFlag true) →
  h !! data props = Some rows →
  ordered_values (columnValues c rows) →
  ∃ out,
    getSortedData native props state h = Some (length h, h ++ [out]) ∧
    out ≡ₚ rows ∧
    StronglySorted
      (λ a b, match o with
              | asc => greater_than (prop a c) (prop b c) = false
              | desc => greater_than (prop b c) (prop a c) = false
              end)
      out.
Proof.
  intros Horders Hperm Hmode Hcurrent Hsort Hdata Hord.
  set (entry := {| column := c; order := o |}) in *.
  set (compare := compareItems (columns props) [entry]).
  assert (entryComparator (columns props) entry
          = Some (λ a b, defaultCompareFunction a b c)) as Hkey.
  { unfold entryComparator. by rewrite Hsort. }
  assert (consistent_on rows compare) as Hcons.
  { apply compareItems_consistent, Forall_singleton.
    intros key Hkey'. rewrite Hkey in Hkey'. injection Hkey' as <-.
    by apply defaultCompareFunction_ordered_consistent. }
  exists (native compare rows). split_and!.
  - rewrite (getSortedData_sorts native props state h rows);
      [by rewrite Hcurrent|done|by rewrite Hcurrent|done].
  - apply Hperm.
  - eapply StronglySorted_weaken_in; [|apply (Horders compare rows Hcons)].
    intros a b Ha Hb Hab. rewrite Hperm in Ha, Hb.
    destruct (defaultCompareFunction_ordered c rows a b Hord Ha Hb)
      as (H0 & H1 & Hm1).
    destruct Hord as [Htri _].
    pose proof (Htri _ _ (columnValues_elem c rows a Ha)
                  (columnValues_elem c rows b Hb)) as Hcase.
    cbv beta in Hab. subst compare. rewrite compareItems_cons, Hkey in Hab.
    unfold directed in Hab. simpl in Hab.
    destruct (Z.eqb_spec (defaultCompareFunction a b c) 0) as [Htie|Hne].
    + apply H0 in Htie.
      destruct Hcase as [(? & ? & ?)|[(? & ? & ?)|(? & ? & ?)]], o;
        congruence.
    + destruct Hcase as [(Heq & ? & ?)|[(? & Hgt & ?)|(? & ? & Hlt)]].
      * by apply H0 in Heq.
      * apply H1 in Hgt. destruct o; [lia|done].
      * apply Hm1 in Hlt. destruct o; [done|lia].
Qed.
End OrderedValues.

(** The rows whose value in column [c] is an integer-valued number. *)
Definition numeric (c : string) (item : TableDataItem Primitive.value) : Prop :=
  ∃ n, prop item c = Primitive.Num n.

(** The integer-valued numbers are totally ordered by [===] and [>]. *)
Lemma numeric_ordered_values (c : string)
    (rows : list (TableDataItem Primitive.value)) :
  Forall (numeric c) rows → ordered_values (columnValues c rows).
Proof.
  intros Hrows.
  assert (∀ v, v ∈ columnValues c rows → ∃ n, v = Primitive.Num n) as Hnum.
  { intros v (item & -> & Hin)%list_elem_of_fmap.
    rewrite Forall_forall in Hrows. by apply Hrows. }
  split.
  - intros a b [x ->]%Hnum [y ->]%Hnum. simpl.
    unfold Primitive.prim_greater_than. simpl.
    destruct (Z.eqb_spec x y), (Z.ltb_spec y x), (Z.ltb_spec x y);
      try lia; auto.
  - intros a b d [x ->]%Hnum [y ->]%Hnum [z ->]%Hnum. simpl.
    unfold Primitive.prim_greater_than. simpl.
    intros Hxy%Z.ltb_ge Hyz%Z.ltb_ge. apply Z.ltb_ge. lia.
Qed.

(** ** The sample table again *)

(** A click on the rank header while the table is sorted by name: the
    header becomes active and shows the descending default. *)
Lemma header_after_plain_click_sample :
  let event := {| shiftKey := false |} in
  let state := {| sort := [{| column := "name"; order := asc |}] |} in
  let state' := (click Sample.uncontrolled Sample.rankColumn event (state, [])).1 in
  isControlledState Sample.uncontrolled = false ∧
  shiftKey event = false ∧
  renderSortableName Sample.uncontrolled state' Sample.rankColumn
  = {| header_content :=
         [SortIndicator desc; SortSpacer; SortContent Sample.rankColumn];
       header_active := true;
       header_onClick := Sample.rankColumn |}.
Proof.
  intros event state state'.
  split; [reflexivity|]. split; [reflexivity|].
  exact (proj1 (header_after_plain_click Sample.uncontrolled state
                  Sample.rankColumn event [] eq_refl eq_refl)).
Defined.

(** A click in controlled mode: the owner is told, the internal state
    stays. *)
Lemma controlled_click_sample :
  let s := [{| column := "name"; order := asc |}] in
  let state := {| sort := [{| column := "rank"; order := desc |}] |} in
  sortState (Sample.controlled s) = Some s ∧
  onSortStateChange (Sample.controlled s) = Some Sample.record ∧
  click (Sample.controlled s) Sample.nameColumn {| shiftKey := false |} (state, [])
  = (state, [[{| column := "name"; order := desc |}]]).
Proof.
  intros s state. split; [reflexivity|]. split; [reflexivity|].
  destruct (controlled_mode_ignores_internal_state (Sample.controlled s) s
              Sample.record eq_refl eq_refl insertion_sort state state
              Sample.nameColumn {| shiftKey := false |} [] Sample.heap)
    as (_ & _ & _ & _ & new & Hcall & Hclick).
  vm_compute in Hcall. injection Hcall as <-. exact Hclick.
Defined.

(** The modifier click on a column named twice: the first entry goes. *)
Lemma shift_click_in_any_state_sample :
  let event := {| shiftKey := true |} in
  let state :=
    {| sort := [{| column := "rank"; order := asc |};
                {| column := "name"; order := desc |};
                {| column := "name"; order := asc |}] |} in
  shiftKey event = true ∧
  committed (handleColumnSortClick Sample.uncontrolled state Sample.nameColumn event)
  = [{| column := "rank"; order := asc |}; {| column := "name"; order := asc |}].
Proof.
  intros event state. split; [reflexivity|].
  destruct (shift_click_in_any_state Sample.uncontrolled state Sample.nameColumn
              event eq_refl) as (_ & _ & Hcut & _).
  apply (Hcut [{| column := "rank"; order := asc |}]
              {| column := "name"; order := desc |}
              [{| column := "name"; order := asc |}]); [reflexivity..|].
  repeat constructor. discriminate.
Defined.

(** A second entry for the rank column, in the other direction. *)
Lemma duplicate_entry_sample :
  let a := Sample.row (Primitive.Num 1) (Primitive.Num 20) in
  let b := Sample.row (Primitive.Num 2) (Primitive.Num 20) in
  let rank := {| column := "rank"; order := asc |} in
  let rank' := {| column := "rank"; order := desc |} in
  let name := {| column := "name"; order := asc |} in
  column rank' = column rank ∧
  compareItems (columns Sample.uncontrolled) [rank; name; rank'] a b
  = compareItems (columns Sample.uncontrolled) [rank; name] a b.
Proof.
  intros a b rank rank' name. split; [reflexivity|].
  exact (compareItems_duplicate_entry (columns Sample.uncontrolled)
           [] [name] [] rank rank' a b eq_refl).
Defined.

(** The sample rows come back, rearranged. *)
Lemma getSortedData_keeps_rows_sample :
  let state := {| sort := [{| column := "rank"; order := asc |}] |} in
  sort_permutes (@insertion_sort Sample.Item) ∧
  Sample.heap !! data Sample.uncontrolled = Some Sample.rows ∧
  ∃ r h' out,
    getSortedData insertion_sort Sample.uncontrolled state Sample.heap
      = Some (r, h') ∧
    h' !! r = Some out ∧ out ≡ₚ Sample.rows ∧ length out = length Sample.rows.
Proof.
  intros state. split; [apply insertion_sort_permutes|].
  split; [reflexivity|].
  exact (getSortedData_keeps_rows insertion_sort Sample.uncontrolled state
           Sample.heap Sample.rows insertion_sort_permutes eq_refl).
Defined.

(** Sorted by the note column, which has no comparator: a copy in the
    order of [data]. *)
Lemma getSortedData_without_effective_key_sample :
  let state := {| sort := [{| column := "note"; order := asc |}] |} in
  isControlledState Sample.uncontrolled = false ∧
  getSortState Sample.uncontrolled state ≠ [] ∧
  Sample.heap !! data Sample.uncontrolled = Some Sample.rows ∧
  getSortedData insertion_sort Sample.uncontrolled state Sample.heap
  = Some (1%nat, [Sample.rows; Sample.rows]).
Proof.
  intros state.
  assert (getSortState Sample.uncontrolled state ≠ []) as Hnonempty
    by discriminate.
  split; [reflexivity|]. split; [exact Hnonempty|]. split; [reflexivity|].
  refine (proj1 (getSortedData_without_effective_key insertion_sort
            Sample.uncontrolled state Sample.heap Sample.rows
            insertion_sort_stable insertion_sort_permutes eq_refl Hnonempty
            _ eq_refl)).
  apply Forall_singleton. reflexivity.
Defined.

(** Two calls in a row on the sample. *)
Lemma getSortedData_twice_sample :
  let state := {| sort := [{| column := "rank"; order := asc |}] |} in
  isControlledState Sample.uncontrolled = false ∧
  getSortState Sample.uncontrolled state ≠ [] ∧
  Sample.heap !! data Sample.uncontrolled = Some Sample.rows ∧
  ∃ first second h1 h2 out,
    getSortedData insertion_sort Sample.uncontrolled state Sample.heap
      = Some (first, h1) ∧
    getSortedData insertion_sort Sample.uncontrolled state h1
      = Some (second, h2) ∧
    first ≠ second ∧ first ≠ data Sample.uncontrolled ∧
    second ≠ data Sample.uncontrolled ∧
    h2 !! first = Some out ∧ h2 !! second = Some out ∧
    h2 !! data Sample.uncontrolled = Some Sample.rows.
Proof.
  intros state.
  assert (getSortState Sample.uncontrolled state ≠ []) as Hnonempty
    by discriminate.
  split; [reflexivity|]. split; [exact Hnonempty|]. split; [reflexivity|].
  exact (getSortedData_twice insertion_sort Sample.uncontrolled state
           Sample.heap Sample.rows eq_refl Hnonempty eq_refl).
Defined.

(** The sample table at mount: the first click on the rank header, with
    the modifier, sorts by rank descending. *)
Lemma mounted_sample :
  let event := {| shiftKey := true |} in
  isControlledState Sample.uncontrolled = false ∧
  defaultSortState Sample.uncontrolled = None ∧
  committed (handleColumnSortClick Sample.uncontrolled
               (initialState Sample.uncontrolled) Sample.rankColumn event)
  = [{| column := "rank"; order := desc |}].
Proof.
  intros event. split; [reflexivity|]. split; [reflexivity|].
  destruct (mounted_without_default insertion_sort Sample.uncontrolled
              Sample.heap Sample.rankColumn event eq_refl) as [_ Hmount].
  destruct (Hmount eq_refl) as (_ & _ & _ & Hclick). exact Hclick.
Defined.

(** The names of the sample rows are the numbers 2, 1, 3. *)
Lemma ordered_values_sample :
  let rows := Sample.rows in
  ordered_values (columnValues "name" rows) ∧
  consistent_on rows (λ a b, defaultCompareFunction a b "name") ∧
  defaultCompareFunction (Sample.row (Primitive.Num 2) (Primitive.Num 20))
    (Sample.row (Primitive.Num 1) (Primitive.Num 20)) "name" = 1.
Proof.
  intros rows.
  assert (ordered_values (columnValues "name" rows)) as Hord.
  { apply numeric_ordered_values. repeat constructor; eexists; reflexivity. }
  split; [exact Hord|].
  destruct (defaultCompareFunction_on_ordered_values "name" rows Hord)
    as [Hvalue Hcons].
  split; [exact Hcons|].
  apply (Hvalue (Sample.row (Primitive.Num 2) (Primitive.Num 20))
                (Sample.row (Primitive.Num 1) (Primitive.Num 20)));
    [apply elem_of_cons; by left
    |apply elem_of_cons; right; apply elem_of_cons; by left
    |reflexivity].
Defined.

(** The sample sorted by its name column, which asks for the generic
    comparison and holds the numbers 2, 1, 3. *)
Lemma getSortedData_orders_values_sample :
  let state := {| sort := [{| column := "name"; order := asc |}] |} in
  sort_orders (@insertion_sort Sample.Item) ∧
  sort_permutes (@insertion_sort Sample.Item) ∧
  isControlledState Sample.uncontrolled = false ∧
  Sample.heap !! data Sample.uncontrolled = Some Sample.rows ∧
  ordered_values (columnValues "name" Sample.rows) ∧
  ∃ out,
    getSortedData insertion_sort Sample.uncontrolled state Sample.heap
      = Some (1%nat, Sample.heap ++ [out]) ∧
    out ≡ₚ Sample.rows ∧
    StronglySorted
      (λ a b, greater_than (prop a "name") (prop b "name") = false) out.
Proof.
  intros state.
  assert (ordered_values (columnValues "name" Sample.rows)) as Hord.
  { apply numeric_ordered_values. repeat constructor; eexists; reflexivity. }
  split_and!; [apply insertion_sort_orders|apply insertion_sort_permutes
              |reflexivity|reflexivity|exact Hord|].
  exact (getSortedData_orders_values insertion_sort Sample.uncontrolled state
           Sample.heap Sample.rows "name" asc insertion_sort_orders
           insertion_sort_permutes eq_refl eq_refl eq_refl eq_refl Hord).
Defined.

(** The first call of [enhanceColumns] for the columns of the sample. *)
Lemma enhanceColumns_keeps_comparison_sample :
  let ch : Heap.t Sample.Column := [columns Sample.uncontrolled] in
  @cache_current Primitive.value ∅ ch ∧
  ch !! 0%nat = Some (columns Sample.uncontrolled) ∧
  ∃ result cache' ch' shown,
    enhanceColumns ∅ 0%nat ch = Some (result, cache', ch') ∧
    ch' !! result = Some shown ∧
    column_id <$> shown = ["name"; "rank"; "note"; "odd"] ∧
    ∀ current itemA itemB,
      compareItems shown current itemA itemB
      = compareItems (columns Sample.uncontrolled) current itemA itemB.
Proof.
  intros ch.
  assert (@cache_current Primitive.value ∅ ch) as Hcurrent.
  { intros r cached Hr. by rewrite lookup_empty in Hr. }
  split; [exact Hcurrent|]. split; [reflexivity|].
  destruct (enhanceColumns_keeps_comparison ∅ 0%nat ch
              (columns Sample.uncontrolled) Hcurrent eq_refl)
    as (result & cache' & ch' & shown & Hcall & Hshown & Hids & _ & _ & Hcompare).
  exists result, cache', ch', shown.
  split_and!; [exact Hcall|exact Hshown|exact Hids|exact Hcompare].
Defined.

(** ** Repeated clicks, split sort states, missing values *)

Section Periods.
Context {V : Type} `{!JSValue V} {Owner : Type}.
Local Abbreviation Item := (TableDataItem V).
Local Abbreviation Column := (TableColumnConfig (TableDataItem V)).
Local Abbreviation WithProps := (Props (TableDataItem V) Owner).
Implicit Types (props : WithProps) (state : WithTableSortingState).
Implicit Types (cols : list Column) (current : SortState).

Lemma cycleNext_period (d : ColumnSortOrder) (n : option ColumnSortOrder) :
  cycleNext d (cycleNext d (cycleNext d n)) = n.
Proof. by destruct d, n as [[]|]. Qed.

Lemma activeOrder_nextEntry (name : string) (n : option ColumnSortOrder) :
  activeOrder name (nextEntry name n) = n.
Proof. destruct n; [apply activeOrder_singleton|done]. Qed.

Lemma click_plain_uncontrolled props (col : Column) event state (owner : Owner) :
  isControlledState props = false → shiftKey event = false →
  click props col event (state, owner)
  = ({| sort := plainClick (column_id col) (getColumnDefaultSortOrder col)
                  (sort state) |}, owner).
Proof.
  intros Hmode Hplain. rewrite click_uncontrolled by done.
  rewrite handleColumnSortClick_plain by done.
  rewrite committed_handleSortStateChange. unfold getSortState.
  by rewrite Hmode.
Qed.

(** X15: in uncontrolled mode the clicks without the modifier on one
    header repeat with period three from the first click on, whatever the
    sort state was before: the fourth click gives what the first gave. *)
Theorem plain_clicks_have_period_three props (col : Column) event
    (world : WithTableSortingState * Owner) :
  isControlledState props = false →
  shiftKey event = false →
  let once := click props col event world in
  click props col event (click props col event (click props col event once))
  = once.
Proof.
  intros Hmode Hplain once. subst once. destruct world as [state owner].
  rewrite !click_plain_uncontrolled by done. simpl.
  unfold plainClick. by rewrite !activeOrder_nextEntry, cycleNext_period.
Qed.

(** X16: the comparison under a sort state made of two parts is the one
    under the first part unless that ties, and then the one under the
    second part: entries further back never overrule those before them. *)
Theorem compareItems_app cols (first second : SortState) (itemA itemB : Item) :
  compareItems cols (first ++ second) itemA itemB
  = if compareItems cols first itemA itemB =? 0
    then compareItems cols second itemA itemB
    else compareItems cols first itemA itemB.
Proof.
  induction first as [|s first IH]; [done|]. simpl app.
  rewrite !compareItems_cons.
  destruct (entryComparator cols s) as [compare|]; [|done].
  destruct (Z.eqb_spec (compare itemA itemB) 0) as [Htie|Hne]; [done|].
  unfold directed.
  destruct (order s), (Z.eqb_spec (compare itemA itemB) 0),
    (Z.eqb_spec (- compare itemA itemB) 0); try done; lia.
Qed.
End Periods.

(** X17: a row without the property never compares greater under the
    generic comparison: two rows that both lack it tie, and a row that
    lacks it against a row that has a value other than [undefined] gives
    -1 in both argument orders. *)
Theorem defaultCompareFunction_missing_value
    (itemA itemB : TableDataItem Primitive.value) (columnId : string) :
  itemA !! columnId = None →
  (itemB !! columnId = None →
     defaultCompareFunction itemA itemB columnId = 0) ∧
  (∀ v, itemB !! columnId = Some v → v ≠ Primitive.Undefined →
     defaultCompareFunction itemA itemB columnId = -1 ∧
     defaultCompareFunction itemB itemA columnId = -1).
Proof.
  intros HA. unfold defaultCompareFunction, prop. rewrite HA. simpl. split.
  - by intros ->.
  - intros v -> Hv. simpl. unfold Primitive.prim_greater_than. simpl.
    destruct v; try done; simpl; by destruct (Primitive.to_number _).
Qed.

(** Four clicks on the name header of the sample, sorted by rank before. *)
Lemma plain_clicks_period_sample :
  let event := {| shiftKey := false |} in
  let world := ({| sort := [{| column := "rank"; order := asc |}] |}, []) in
  let once := click Sample.uncontrolled Sample.nameColumn event world in
  isControlledState Sample.uncontrolled = false ∧
  shiftKey event = false ∧
  click Sample.uncontrolled Sample.nameColumn event
    (click Sample.uncontrolled Sample.nameColumn event
       (click Sample.uncontrolled Sample.nameColumn event once))
  = once.
Proof.
  intros event world once. split; [reflexivity|]. split; [reflexivity|].
  exact (plain_clicks_have_period_three Sample.uncontrolled Sample.nameColumn
           event world eq_refl eq_refl).
Defined.

(** A row without a rank against a row with one. *)
Lemma missing_value_sample :
  let a : Sample.Item := {[ "name" := Primitive.Num 1 ]} in
  let b := Sample.row (Primitive.Num 2) (Primitive.Num 7) in
  a !! "rank" = None ∧
  defaultCompareFunction a b "rank" = -1 ∧
  defaultCompareFunction b a "rank" = -1.
Proof.
  intros a b. split; [reflexivity|].
  destruct (defaultCompareFunction_missing_value a b "rank" eq_refl)
    as [_ Hmissing].
  apply (Hmissing (Primitive.Num 7)); [reflexivity|discriminate].
Defined.
